(** * Clustering visitors of DataFrame: K-means and affinity propagation

    Shallow embedding of [include/DataFrame/DataFrameMLVisitors.h]
    ([hmdf::KMeansVisitor] and [hmdf::AffinityPropVisitor]) and the
    properties of the two engines.

    Conventions of the embedding:
    - [double] is Rocq's primitive binary64 [float]; every arithmetic
    operation and comparison is the IEEE-754 one of the C++ code.
    - [size_type] values are [nat].  The only place where the source
    relies on unsigned wrap-around for every input is [csize - 1] in
    [get_similarity_]; it is written out as [size_sub].  The products
    [i * csize] are exact as long as the O(n^2) matrices fit in memory.
    - [std::vector] / [std::array] are lists read with [nth] and written
    with [vset]; the lemmas [packed_lt] and friends show that every
    index the code uses is inside the vector.
    - the non-owning views ([VectorPtrView]) hold addresses: [Mean i] is
    [&k_means_[i]] and [Elem j] is [&col[j]].  The exemplar view of the
    affinity propagation is read again by [get_clusters], possibly with
    another column at hand: its addresses are kept together with the
    elements they point at ([pointees_]).
    - an automatic variable read before any assignment ([min_idx] in the
    two [get_clusters]) is an [option]: [None] is "never assigned", and
    using it as a subscript makes the whole call undefined ([None]). *)

From Stdlib Require Import Floats List Arith ZArith Lia Bool Sorted.
Import ListNotations.

(* ------------------------------------------------------------------ *)
(** ** Doubles *)

Module Double.

(** [std::numeric_limits<double>::max()] *)
Definition max : float := 0x1.fffffffffffffp+1023%float.

(** [a > b] on doubles *)
Definition gtb (a b : float) : bool := (b <? a)%float.

(** [std::max(a, b)]: [(a < b) ? b : a] *)
Definition std_max (a b : float) : float := if (a <? b)%float then b else a.

(** [std::min(a, b)]: [(b < a) ? b : a] *)
Definition std_min (a b : float) : float := if (b <? a)%float then b else a.

(** The double is not a NaN. *)
Definition ordered (x : float) : Prop := Prim2SF x <> S754_nan.

(** Total order key of a non-NaN double: sign class, then exponent and
    mantissa in the direction of the sign. *)
Definition key (f : spec_float) : Z * Z * Z :=
  match f with
  | S754_zero _ => (0, 0, 0)
  | S754_infinity true => (-2, 0, 0)
  | S754_infinity false => (2, 0, 0)
  | S754_nan => (0, 0, 0)
  | S754_finite true m e => (-1, - e, - Zpos m)
  | S754_finite false m e => (1, e, Zpos m)
  end%Z.

Definition key_lt (p q : Z * Z * Z) : Prop :=
  let '(a1, b1, c1) := p in
  let '(a2, b2, c2) := q in
  (a1 < a2 \/ (a1 = a2 /\ (b1 < b2 \/ (b1 = b2 /\ c1 < c2))))%Z.

End Double.

(* ------------------------------------------------------------------ *)
(** ** Vectors and counted loops *)

Section Vectors.
Context {A : Type}.

(** [v[k] = x] *)
Fixpoint vset (v : list A) (k : nat) (x : A) : list A :=
  match v, k with
  | [], _ => []
  | _ :: t, 0 => x :: t
  | h :: t, S k' => h :: vset t k' x
  end.

(** [v.resize(n, x)] *)
Definition resize (v : list A) (n : nat) (x : A) : list A :=
  firstn n v ++ repeat x (n - length v).

End Vectors.

(** [for (i = lo; i < hi; ++i) s = body i s;] *)
Definition for_loop {S : Type} (lo hi : nat) (body : nat -> S -> S) (s : S) : S :=
  fold_left (fun s i => body i s) (seq lo (hi - lo)) s.

(** The nearest-representative scan that both engines run for a point:
<<
    double min_dist = std::numeric_limits<double>::max();
    size_type min_idx (= none);
    for (size_type i = 0; i < k; ++i) {
      const double dist = dist(i);
      if (dist < min_dist) { min_dist = dist; min_idx = i; }
    }
>>
    [none] is the initial content of the index variable and [some] what
    an assignment stores. *)
Definition nearest {Ix : Type} (some : nat -> Ix) (none : Ix)
    (dist : nat -> float) (k : nat) : float * Ix :=
  for_loop 0 k
    (fun i '(min_dist, min_idx) =>
       let d := dist i in
       if (d <? min_dist)%float then (d, some i) else (min_dist, min_idx))
    (Double.max, none).

(** Addresses held by a [VectorPtrView<value_type>]: the view never owns
    a value, it points into the visitor's centroid array or into the
    caller's column. *)
Inductive ptr : Type :=
| Mean (i : nat)   (* &k_means_[i] *)
| Elem (j : nat).  (* &col[j] *)

(** [clusters[m].push_back(p)] *)
Definition push_back (clusters : list (list ptr)) (m : nat) (p : ptr)
  : list (list ptr) :=
  vset clusters m (nth m clusters [] ++ [p]).

(** The point loop of both [get_clusters]:
<<
    for (size_type j = 0; j < col_size; ++j) {
      double min_dist = ...; size_type min_idx;
      for (...) ...                       // min_idx j
      clusters[min_idx].push_back(const_cast<value_type *>(&(col[j])));
    }
>>
    [None]: [clusters] was subscripted with a [min_idx] that was never
    assigned. *)
Definition assign_points (min_idx : nat -> option nat) (col_size : nat)
    (clusters : list (list ptr)) : option (list (list ptr)) :=
  for_loop 0 col_size
    (fun j ocl =>
       match ocl with
       | None => None
       | Some cl =>
           match min_idx j with
           | None => None
           | Some m => Some (push_back cl m (Elem j))
           end
       end)
    (Some clusters).

(* ------------------------------------------------------------------ *)
(** ** [KMeansVisitor<K, T, I>] *)

Module KMeans.
Section Visitor.
Variable K : nat.                     (* template<size_t K, ...> *)
Variable T : Type.                    (* value_type *)
Variable I : Type.                    (* index_type *)
Variable T0 : T.                      (* value_type() *)
Variable tadd : T -> T -> T.          (* operator+ of value_type *)
Variable tdiv : T -> float -> T.      (* value_type / double *)

Record KMeansVisitor : Type := {
  iter_num_ : nat;
  dfunc_ : T -> T -> float;
  k_means_ : list T                   (* std::array<value_type, K> *)
}.

(** The constructor; [k_means_ { }] value-initialises the K entries. *)
Definition make (num_of_iter : nat) (f : T -> T -> float) : KMeansVisitor :=
  {| iter_num_ := num_of_iter; dfunc_ := f; k_means_ := repeat T0 K |}.

(** The convergence threshold [0.0000001], as the compiler reads it. *)
Definition epsilon : float := 0x1.ad7f29abcaf48p-24%float.

Section Calc.
Variable dfunc : T -> T -> float.
Variable col : list T.
Variable col_size : nat.

(** "Pick centroids as random points from the col."  [rd_gen c] is
    the c-th draw of [rd_gen(gen)]. *)
Definition pick_centroids (rd_gen : nat -> nat) (k_means : list T) : list T :=
  for_loop 0 K (fun c km => vset km c (nth (rd_gen c) col T0)) k_means.

(** The inner loop of "Find assignments" for one point. *)
Definition best_cluster (k_means : list T) (point : nat) : nat :=
  snd (nearest (fun c => c) 0
         (fun cluster => dfunc (nth point col T0) (nth cluster k_means T0)) K).

(** "Find assignments." *)
Definition find_assignments (k_means : list T) (assignments : list nat)
  : list nat :=
  for_loop 0 col_size
    (fun point asg => vset asg point (best_cluster k_means point))
    assignments.

(** "Sum up and count points for each cluster." *)
Definition sum_and_count (assignments : list nat) : list T * list float :=
  for_loop 0 col_size
    (fun point '(new_means, counts) =>
       let cluster := nth point assignments 0 in
       (vset new_means cluster
             (tadd (nth cluster new_means T0) (nth point col T0)),
        vset counts cluster (nth cluster counts 0 + 1)%float))
    (repeat T0 K, repeat 0%float K).

(** The divisor: "Turn 0/0 into 0/1 to avoid zero division." *)
Definition divisor (counts : list float) (cluster : nat) : float :=
  Double.std_max 1 (nth cluster counts 0%float).

(** [new_means[cluster] / count] *)
Definition new_value (new_means : list T) (counts : list float)
    (cluster : nat) : T :=
  tdiv (nth cluster new_means T0) (divisor counts cluster).

(** "Divide sums by counts to get new centroids."  The state is
    [(done, k_means_)]. *)
Definition divide (new_means : list T) (counts : list float)
    (k_means : list T) : bool * list T :=
  for_loop 0 K
    (fun cluster '(done, km) =>
       let value := new_value new_means counts cluster in
       if Double.gtb (dfunc value (nth cluster km T0)) epsilon
       then (false, vset km cluster value)
       else (done, km))
    (true, k_means).

(** One turn of the [iter] loop, up to [if (done) break;]. *)
Definition iteration (st : list T * list nat) : bool * (list T * list nat) :=
  let '(k_means, assignments) := st in
  let assignments := find_assignments k_means assignments in
  let '(new_means, counts) := sum_and_count assignments in
  let '(done, k_means) := divide new_means counts k_means in
  (done, (k_means, assignments)).

(** [for (iter = 0; iter < iter_num_; ++iter) { ...; if (done) break; }]
    with [left] turns to go.  The second component counts the turns
    that were executed. *)
Fixpoint iterate (left : nat) (st : list T * list nat)
  : (list T * list nat) * nat :=
  match left with
  | 0 => (st, 0)
  | S left' =>
      let '(done, st') := iteration st in
      if done then (st', 1)
      else let '(st'', n) := iterate left' st' in (st'', S n)
  end.
End Calc.

(** [calc_k_means_(col, col_size)] together with the number of
    iterations it ran. *)
Definition calc_k_means_trace (v : KMeansVisitor) (rd_gen : nat -> nat)
    (col : list T) (col_size : nat) : KMeansVisitor * nat :=
  let k_means := pick_centroids col rd_gen (k_means_ v) in
  let assignments := repeat 0 col_size in
  let '((k_means, _), n) :=
    iterate (dfunc_ v) col col_size (iter_num_ v) (k_means, assignments) in
  ({| iter_num_ := iter_num_ v; dfunc_ := dfunc_ v; k_means_ := k_means |}, n).

Definition calc_k_means_ (v : KMeansVisitor) (rd_gen : nat -> nat)
    (col : list T) (col_size : nat) : KMeansVisitor :=
  fst (calc_k_means_trace v rd_gen col col_size).

(** [operator()(idx, col)]; [rd_gen] is the stream of random draws the
    call consumes. *)
Definition compute (v : KMeansVisitor) (rd_gen : nat -> nat)
    (idx : list I) (col : list T) : KMeansVisitor :=
  calc_k_means_ v rd_gen col (Nat.min (length idx) (length col)).

(** Number of turns of the refinement loop in that call. *)
Definition iterations_run (v : KMeansVisitor) (rd_gen : nat -> nat)
    (idx : list I) (col : list T) : nat :=
  snd (calc_k_means_trace v rd_gen col (Nat.min (length idx) (length col))).

Definition get_result (v : KMeansVisitor) : list T := k_means_ v.

(** The index found for point [j] in [get_clusters]; [None] when
    [min_idx] was never assigned. *)
Definition min_idx (v : KMeansVisitor) (col : list T) (j : nat) : option nat :=
  snd (nearest Some None
         (fun i => dfunc_ v (nth j col T0) (nth i (k_means_ v) T0)) K).

(** [get_clusters(idx, col)].  [None]: the call subscripted [clusters]
    with an indeterminate [min_idx]. *)
Definition get_clusters (v : KMeansVisitor) (idx : list I) (col : list T)
  : option (list (list ptr)) :=
  let col_size := Nat.min (length idx) (length col) in
  let clusters :=
    for_loop 0 K (fun i cl => push_back cl i (Mean i)) (repeat [] K) in
  assign_points (min_idx v col) col_size clusters.

(** [pre()] and [post()] *)
Definition pre (v : KMeansVisitor) : KMeansVisitor := v.
Definition post (v : KMeansVisitor) : KMeansVisitor := v.

(** What a view entry points at. *)
Definition deref (v : KMeansVisitor) (col : list T) (p : ptr) : T :=
  match p with
  | Mean i => nth i (k_means_ v) T0
  | Elem j => nth j col T0
  end.
End Visitor.

Arguments KMeansVisitor : clear implicits.
Arguments pick_centroids K {T} T0 col rd_gen k_means.
Arguments best_cluster K {T} T0 dfunc col k_means point.
Arguments find_assignments K {T} T0 dfunc col col_size k_means assignments.
Arguments sum_and_count K {T} T0 tadd col col_size assignments.
Arguments new_value {T} T0 tdiv new_means counts cluster.
Arguments divide K {T} T0 tdiv dfunc new_means counts k_means.
Arguments iteration K {T} T0 tadd tdiv dfunc col col_size st.
Arguments iterate K {T} T0 tadd tdiv dfunc col col_size left st.
Arguments make K {T} T0 num_of_iter f.
Arguments compute K {T I} T0 tadd tdiv v rd_gen idx col.
Arguments calc_k_means_ K {T} T0 tadd tdiv v rd_gen col col_size.
Arguments calc_k_means_trace K {T} T0 tadd tdiv v rd_gen col col_size.
Arguments iterations_run K {T I} T0 tadd tdiv v rd_gen idx col.
Arguments get_clusters K {T I} T0 v idx col.
Arguments get_result {T} v.
Arguments min_idx K {T} T0 v col j.
Arguments deref {T} T0 v col p.
Arguments iter_num_ {T} k.
Arguments dfunc_ {T} k.
Arguments k_means_ {T} k.
End KMeans.

(** The default distance function of both visitors for [T = double]:
    [(x - y) * (x - y)]. *)
Definition sq_diff (x y : float) : float := ((x - y) * (x - y))%float.

(* ------------------------------------------------------------------ *)
(** ** [AffinityPropVisitor<T, I>] *)

Module AffinityProp.

(** [a - b] on [size_type]: unsigned, modulo [2^64]. *)
Definition size_sub (a b : nat) : nat :=
  if b <=? a then a - b else 2 ^ 64 - (b - a).

(** Offset of entry [(i, j)] in the packed triangular vector:
    [(i * csize) + j - ((i * (i + 1)) >> 1)]. *)
Definition packed (csize i j : nat) : nat :=
  (i * csize) + j - Nat.shiftr (i * (i + 1)) 1.

Section Visitor.
Variable T : Type.                    (* value_type *)
Variable I : Type.                    (* index_type *)
Variable T0 : T.                      (* value_type() *)

Record AffinityPropVisitor : Type := {
  iter_num_ : nat;
  dfunc_ : T -> T -> float;
  dfactor_ : float;
  centers_ : list ptr;                (* VectorPtrView<value_type> *)
  pointees_ : list T                  (* the elements [centers_] refers to *)
}.

(** The constructor; [centers_ { }] is the empty view. *)
Definition make (num_of_iter : nat) (f : T -> T -> float)
    (damping_factor : float) : AffinityPropVisitor :=
  {| iter_num_ := num_of_iter; dfunc_ := f; dfactor_ := damping_factor;
     centers_ := []; pointees_ := [] |}.

(** [centers_[i]]: the view reads through the address stored at position
    [i].  That address was taken by [operator()] in the column it was
    called on, whatever column [get_clusters] is given later; the columns
    are [const] for the visitor and the caller keeps them alive, so the
    element is the one recorded in [pointees_] when the address was
    stored. *)
Definition deref (v : AffinityPropVisitor) (i : nat) : T :=
  nth i (pointees_ v) T0.

(** [get_similarity_(col, csize)] *)
Definition get_similarity_ (dfunc : T -> T -> float) (col : list T)
    (csize : nat) : list float :=
  let simil := repeat 0%float ((csize * (csize + 1)) / 2) in
  let min_val := Double.max in
  (* Compute similarity between distinct data points i and j *)
  let '(simil, min_val) :=
    for_loop 0 (size_sub csize 1)
      (fun i st =>
         for_loop (i + 1) csize
           (fun j '(simil, min_val) =>
              let val := (- dfunc (nth i col T0) (nth j col T0))%float in
              (vset simil (packed csize i j) val,
               if (val <? min_val)%float then val else min_val))
           st)
      (simil, min_val) in
  (* Assign min to diagonals *)
  for_loop 0 csize (fun i simil => vset simil (packed csize i i) min_val) simil.

Section Messages.
Variable dfactor : float.
Variable simil : list float.
Variable csize : nat.

(** One step of either [jj] loop of the responsibility update. *)
Definition max_step (avail : list float) (i jj : nat) (max_diff : float)
  : float :=
  let value :=
    (nth (packed csize i jj) simil 0 + nth (jj * csize + i) avail 0)%float in
  if Double.gtb value max_diff then value else max_diff.

(** [max_diff] for the pair [(i, j)]: the two [jj] loops. *)
Definition max_diff (avail : list float) (i j : nat) : float :=
  let m := (- Double.max)%float in
  let m := for_loop 0 j (max_step avail i) m in
  for_loop (j + 1) csize (max_step avail i) m.

(** "Update responsibility" *)
Definition update_respon (avail respon : list float) : list float :=
  for_loop 0 csize
    (fun i respon =>
       for_loop 0 csize
         (fun j respon =>
            vset respon (j * csize + i)
              ((1 - dfactor) *
               (nth (packed csize i j) simil 0 - max_diff avail i j) +
               dfactor * nth (j * csize + i) respon 0)%float)
         respon)
    respon.

(** [sum += std::max(0.0, respon[j * csize + ii])] *)
Definition sum_step (respon : list float) (j ii : nat) (sum : float)
  : float :=
  (sum + Double.std_max 0 (nth (j * csize + ii) respon 0))%float.

(** "Update availability" *)
Definition update_avail (respon avail : list float) : list float :=
  for_loop 0 csize
    (fun i avail =>
       for_loop 0 csize
         (fun j avail =>
            if Nat.eqb i j then
              let sum := 0%float in
              let sum := for_loop 0 i (sum_step respon j) sum in
              let sum := for_loop (i + 1) csize (sum_step respon j) sum in
              vset avail (j * csize + i)
                ((1 - dfactor) * sum +
                 dfactor * nth (j * csize + i) avail 0)%float
            else
              let sum := 0%float in
              let max_i_j := Nat.max i j in
              let min_i_j := Nat.min i j in
              let sum := for_loop 0 min_i_j (sum_step respon j) sum in
              let sum :=
                for_loop (min_i_j + 1) max_i_j (sum_step respon j) sum in
              let sum :=
                for_loop (max_i_j + 1) csize (sum_step respon j) sum in
              vset avail (j * csize + i)
                ((1 - dfactor) *
                 Double.std_min 0 (nth (j * csize + j) respon 0 + sum) +
                 dfactor * nth (j * csize + i) avail 0)%float)
         avail)
    avail.

(** One turn of the [m] loop; the state is [(avail, respon)]. *)
Definition round (st : list float * list float) : list float * list float :=
  let '(avail, respon) := st in
  let respon := update_respon avail respon in
  let avail := update_avail respon avail in
  (avail, respon).

(** [get_avail_and_respon(simil, csize, avail, respon)]; the third
    component counts the turns of the [m] loop. *)
Definition get_avail_and_respon_trace (iter_num : nat)
    (avail respon : list float) : list float * list float * nat :=
  let avail := resize avail (csize * csize) 0%float in
  let respon := resize respon (csize * csize) 0%float in
  for_loop 0 iter_num
    (fun m '(st, turns) => (round st, S turns))
    ((avail, respon), 0).

Definition get_avail_and_respon (iter_num : nat)
    (avail respon : list float) : list float * list float :=
  fst (get_avail_and_respon_trace iter_num avail respon).
End Messages.

(** The exemplar test of [operator()] on position [i]. *)
Definition is_exemplar (csize : nat) (avail respon : list float) (i : nat)
  : bool :=
  Double.gtb (nth (i * csize + i) respon 0 + nth (i * csize + i) avail 0)%float
             0%float.

(** The final matrices [(avail, respon)] of a call of [operator()]. *)
Definition messages (v : AffinityPropVisitor) (idx : list I) (col : list T)
  : list float * list float :=
  let csize := Nat.min (length idx) (length col) in
  let simil := get_similarity_ (dfunc_ v) col csize in
  get_avail_and_respon (dfactor_ v) simil csize (iter_num_ v) [] [].

(** [operator()(idx, col)] *)
Definition compute (v : AffinityPropVisitor) (idx : list I) (col : list T)
  : AffinityPropVisitor :=
  let csize := Nat.min (length idx) (length col) in
  let '(avail, respon) := messages v idx col in
  let '(centers, pointees) :=
    for_loop 0 csize
      (fun i '(centers, pointees) =>
         if is_exemplar csize avail respon i
         then (centers ++ [Elem i], pointees ++ [nth i col T0])
         else (centers, pointees))
      (centers_ v, pointees_ v) in
  {| iter_num_ := iter_num_ v; dfunc_ := dfunc_ v; dfactor_ := dfactor_ v;
     centers_ := centers; pointees_ := pointees |}.

(** Number of message-passing rounds in that call. *)
Definition rounds_run (v : AffinityPropVisitor) (idx : list I) (col : list T)
  : nat :=
  let csize := Nat.min (length idx) (length col) in
  let simil := get_similarity_ (dfunc_ v) col csize in
  snd (get_avail_and_respon_trace (dfactor_ v) simil csize (iter_num_ v) [] []).

Definition get_result (v : AffinityPropVisitor) : list ptr := centers_ v.

(** The index found for point [j] in [get_clusters]; [None] when
    [min_idx] was never assigned. *)
Definition min_idx (v : AffinityPropVisitor) (col : list T) (j : nat)
  : option nat :=
  snd (nearest Some None
         (fun i => dfunc_ v (nth j col T0) (deref v i))
         (length (centers_ v))).

(** [get_clusters(idx, col)].  [None]: the call subscripted [clusters]
    with an indeterminate [min_idx]. *)
Definition get_clusters (v : AffinityPropVisitor) (idx : list I)
    (col : list T) : option (list (list ptr)) :=
  let csize := Nat.min (length idx) (length col) in
  let centers_size := length (centers_ v) in
  let clusters := [] in
  if 0 <? centers_size then
    let clusters := resize clusters centers_size [] in
    assign_points (min_idx v col) csize clusters
  else Some clusters.

(** [pre()] and [post()] *)
Definition pre (v : AffinityPropVisitor) : AffinityPropVisitor := v.
Definition post (v : AffinityPropVisitor) : AffinityPropVisitor := v.
End Visitor.

Arguments AffinityPropVisitor : clear implicits.
Arguments make {T} num_of_iter f damping_factor.
Arguments deref {T} T0 v i.
Arguments get_similarity_ {T} T0 dfunc col csize.
Arguments messages {T I} T0 v idx col.
Arguments compute {T I} T0 v idx col.
Arguments rounds_run {T I} T0 v idx col.
Arguments get_result {T} v.
Arguments min_idx {T} T0 v col j.
Arguments get_clusters {T I} T0 v idx col.
Arguments iter_num_ {T} a.
Arguments dfunc_ {T} a.
Arguments dfactor_ {T} a.
Arguments centers_ {T} a.
Arguments pointees_ {T} a.
End AffinityProp.

(* ------------------------------------------------------------------ *)
(** ** Notions used to state the properties *)

(** What the scan has established after looking at the first [k]
    candidates. *)
Definition scanned {Ix : Type} (some : nat -> Ix) (none : Ix)
  (dist : nat -> float) (k : nat) (r : float * Ix) : Prop :=
  (r = (Double.max, none) /\
   forall c, c < k -> (dist c <? Double.max)%float = false) \/
  (exists g, g < k /\ r = (dist g, some g) /\
     (dist g <? Double.max)%float = true /\
     (forall c, c < k -> (dist c <? dist g)%float = false) /\
     (forall c, c < g -> Double.ordered (dist c) ->
                (dist g <? dist c)%float = true)).

(** Every distance from a point below [n] to a representative below [k]
    is strictly below the largest finite double (so none is a NaN). *)
Definition below_max_all (dist : nat -> nat -> float) (n k : nat) : bool :=
  forallb (fun j => forallb (fun c => (dist j c <? Double.max)%float) (seq 0 k))
          (seq 0 n).

(** The points below [n] that [assignments] gives to cluster [c], in
    column order. *)
Definition assigned (assignments : list nat) (n c : nat) : list nat :=
  filter (fun p => nth p assignments 0 =? c) (seq 0 n).

(** The double that [counts[cluster] += 1.0] produces after [k] points. *)
Definition count_float (k : nat) : float :=
  Nat.iter k (fun x => (x + 1)%float) 0%float.

(** The double 1.0. *)
Definition SF_one : spec_float := S754_finite false 4503599627370496%positive (-52)%Z.

Section KMeansNotions.
Variable K : nat.
Variable T : Type.
Variable T0 : T.
Variable tadd : T -> T -> T.
Variable tdiv : T -> float -> T.
Variable dfunc : T -> T -> float.
Variable col : list T.
Variable col_size : nat.

(** The test [dfunc_(value, k_means_[cluster]) > 0.0000001]. *)
Definition moved (new_means : list T) (counts : list float) (km : list T)
    (c : nat) : bool :=
  Double.gtb (dfunc (KMeans.new_value T0 tdiv new_means counts c) (nth c km T0))
             KMeans.epsilon.

(** The centroids the update step computes from a loop state: the sums
    of the freshly assigned points divided by their divisors. *)
Definition new_centroids (st : list T * list nat) : list T :=
  let '(nm, cnt) :=
    KMeans.sum_and_count K T0 tadd col col_size
      (KMeans.find_assignments K T0 dfunc col col_size (fst st) (snd st)) in
  map (KMeans.new_value T0 tdiv nm cnt) (seq 0 K).

(** Whether cluster [c] moves by more than the threshold in the turn
    that starts in state [st]. *)
Definition moves (st : list T * list nat) (c : nat) : bool :=
  Double.gtb (dfunc (nth c (new_centroids st) T0) (nth c (fst st) T0))
             KMeans.epsilon.

(** The loop state after [k] turns, had none of them left the loop. *)
Definition state_after (k : nat) (st : list T * list nat) : list T * list nat :=
  Nat.iter k
    (fun s => snd (KMeans.iteration K T0 tadd tdiv dfunc col col_size s)) st.

(** The reading of C3 that the code does not have: a turn that does not
    converge leaves the newly computed centroids, all of them, in
    [k_means_]. *)
Definition adopts_new_centroids (st : list T * list nat) : Prop :=
  fst (KMeans.iteration K T0 tadd tdiv dfunc col col_size st) = false ->
  fst (snd (KMeans.iteration K T0 tadd tdiv dfunc col col_size st)) =
  new_centroids st.

(** The sum of the points of a cluster, as the loop accumulates it from
    [value_type()]. *)
Definition sum_of (pts : list nat) : T :=
  fold_left tadd (map (fun p => nth p col T0) pts) T0.

(** The distance [get_clusters] computes between point [j] and centroid
    [c]: [dfunc_(col[j], k_means_[c])]. *)
Definition km_dist (v : KMeans.KMeansVisitor T) (col : list T) (j c : nat)
  : float :=
  KMeans.dfunc_ v (nth j col T0) (nth c (KMeans.k_means_ v) T0).
End KMeansNotions.

Arguments moved {T} T0 tdiv dfunc new_means counts km c.
Arguments new_centroids K {T} T0 tadd tdiv dfunc col col_size st.
Arguments moves K {T} T0 tadd tdiv dfunc col col_size st c.
Arguments state_after K {T} T0 tadd tdiv dfunc col col_size k st : simpl never.
Arguments adopts_new_centroids K {T} T0 tadd tdiv dfunc col col_size st.
Arguments sum_of {T} T0 tadd col pts.
Arguments km_dist {T} T0 v col j c.

Section AffinityPropNotions.
Variable T : Type.
Variable I : Type.
Variable T0 : T.
Implicit Types (v : AffinityProp.AffinityPropVisitor T) (col : list T)
  (idx : list I).

(** The same visitor with an empty exemplar view. *)
Definition cleared v : AffinityProp.AffinityPropVisitor T :=
  AffinityProp.make (AffinityProp.iter_num_ v) (AffinityProp.dfunc_ v)
                    (AffinityProp.dfactor_ v).

(** The positions a call of [operator()] elects. *)
Definition elected v idx col : list nat :=
  let csize := Nat.min (length idx) (length col) in
  let m := AffinityProp.messages T0 v idx col in
  filter (AffinityProp.is_exemplar csize (fst m) (snd m)) (seq 0 csize).

(** The distance [get_clusters] computes between point [j] and exemplar
    [i]: [dfunc_(col[j], centers_[i])]. *)
Definition ap_dist v col (j i : nat) : float :=
  AffinityProp.dfunc_ v (nth j col T0) (AffinityProp.deref T0 v i).

(** [get_clusters] as the specification words it: no group without an
    exemplar; otherwise one group per exemplar, and every column position
    in the group of its nearest exemplar, the first among equally near
    ones. *)
Definition groups_by_nearest_exemplar v idx col : Prop :=
  let n := Nat.min (length idx) (length col) in
  let k := length (AffinityProp.centers_ v) in
  (AffinityProp.centers_ v = [] ->
   AffinityProp.get_clusters T0 v idx col = Some []) /\
  (AffinityProp.centers_ v <> [] ->
   exists clusters,
     AffinityProp.get_clusters T0 v idx col = Some clusters /\
     length clusters = k /\
     forall j, j < n ->
       exists m, m < k /\ In (Elem j) (nth m clusters []) /\
         (forall c, c < k ->
            (ap_dist v col j c <? ap_dist v col j m)%float = false) /\
         (forall c, c < m ->
            (ap_dist v col j m <? ap_dist v col j c)%float = true)).
End AffinityPropNotions.

Arguments cleared {T} v.
Arguments elected {T I} T0 v idx col.
Arguments ap_dist {T} T0 v col j i.
Arguments groups_by_nearest_exemplar {T I} T0 v idx col.

(** Triangular numbers and the offset of the diagonal entry of row [i]. *)
Fixpoint tri (i : nat) : nat :=
  match i with
  | 0 => 0
  | S i' => tri i' + S i'
  end.

Fixpoint row_start (n i : nat) : nat :=
  match i with
  | 0 => 0
  | S i' => row_start n i' + (n - i')
  end.

(** The similarity matrix "read through the packed-triangular addressing
    as a full n x n matrix": entry [(i, j)] is the stored entry of the
    unordered pair. *)
Definition s_full (simil : list float) (n i j : nat) : float :=
  nth (AffinityProp.packed n (Nat.min i j) (Nat.max i j)) simil 0%float.

Section SimilarityNotions.
Variable T : Type.
Variable T0 : T.
Variable dfunc : T -> T -> float.
Variable col : list T.
Variable n : nat.

(** The similarity of two points: [-dfunc_(col[a], col[b])]. *)
Definition sim (a b : nat) : float :=
  (- dfunc (nth a col T0) (nth b col T0))%float.

(** What the first double loop has established once the pairs in [S]
    have been visited: they are stored, none of them is below the running
    minimum, and the running minimum is still the initial value or one of
    them. *)
Definition pairs_done (S : nat -> nat -> Prop) (st : list float * float) : Prop :=
  let '(simil, min_val) := st in
  length simil = (n * (n + 1)) / 2 /\
  (forall a b, S a b ->
     nth (AffinityProp.packed n a b) simil 0%float = sim a b) /\
  (forall a b, S a b -> (sim a b <? min_val)%float = false) /\
  ((min_val = Double.max /\
    forall a b, S a b -> (sim a b <? Double.max)%float = false) \/
   (exists a b, S a b /\ min_val = sim a b)).

(** The similarity matrix as the specification words it, for a full
    matrix [s]: symmetric off the diagonal with [s(i,j) = -dfunc(col[i],
    col[j])], and every diagonal entry is the least off-diagonal
    similarity: the similarity of some pair, and no pair is below it. *)
Definition similarity_as_claimed (s : nat -> nat -> float) : Prop :=
  (forall i j, i < n -> j < n -> i <> j -> s i j = s j i /\ s i j = sim i j) /\
  (forall i, i < n ->
     exists a b, a < b /\ b < n /\ s i i = sim a b /\
       forall a' b', a' < b' -> b' < n -> (sim a' b' <? sim a b)%float = false).
End SimilarityNotions.

Arguments sim {T} T0 dfunc col a b.
Arguments pairs_done {T} T0 dfunc col n S st.
Arguments similarity_as_claimed {T} T0 dfunc col n s.

(** The update of the specification, over full matrices [s], [a] and
    [r_prev]: the maximum over [j' <> j] of [s(i,j') + a(j',i)], from the
    lowest double, and
    [r(i,j) = (1-d) (s(i,j) - max) + d r_prev(i,j)]. *)
Definition spec_max (s a : nat -> nat -> float) (n i j : nat) : float :=
  fold_left
    (fun m j' =>
       if j' =? j then m
       else let value := (s i j' + a j' i)%float in
            if Double.gtb value m then value else m)
    (seq 0 n) (- Double.max)%float.

Definition spec_respon (d : float) (s a r_prev : nat -> nat -> float)
    (n i j : nat) : float :=
  ((1 - d) * (s i j - spec_max s a n i j) + d * r_prev i j)%float.

(** The matrices of the code as functions: [r(i,j)] is
    [respon[j * n + i]] and [a(j,i)] is [avail[j * n + i]]. *)
Definition r_of (respon : list float) (n i j : nat) : float :=
  nth (j * n + i) respon 0%float.
Definition a_of (avail : list float) (n j i : nat) : float :=
  nth (j * n + i) avail 0%float.

Section MessageNotions.
Variable dfactor : float.
Variable simil : list float.
Variable n : nat.

(** The value the code stores for the pair [(i, j)]. *)
Definition code_respon (avail respon : list float) (i j : nat) : float :=
  ((1 - dfactor) *
   (nth (AffinityProp.packed n i j) simil 0 -
    AffinityProp.max_diff simil n avail i j) +
   dfactor * nth (j * n + i) respon 0)%float.

(** The state before round [k] of a call that starts from empty
    vectors. *)
Definition before_round (k : nat) : list float * list float :=
  Nat.iter k (AffinityProp.round dfactor simil n)
    (repeat 0%float (n * n), repeat 0%float (n * n)).
End MessageNotions.

(** ** Inputs of the examples *)

(** A column and a seeding where one cluster moves a lot and the other by
    less than the threshold. *)
Definition drift_col : list float := [0; 0x1p-13; 10; 20]%float.
Definition drift_state : list float * list nat :=
  (KMeans.pick_centroids 2 0%float drift_col
     (fun c => match c with 0 => 0 | _ => 2 end) (repeat 0%float 2),
   repeat 0 4).

(** Scenario A of the specification: six points, two centroids seeded on
    positions 0 and 3. *)
Definition six_points : list float := [0; 0; 0; 10; 10; 10]%float.
Definition six_points_visitor : KMeans.KMeansVisitor float :=
  KMeans.compute 2 0%float PrimFloat.add PrimFloat.div
    (KMeans.make 2 0%float 10 sq_diff)
    (fun c => match c with 0 => 0 | _ => 3 end) (seq 0 6) six_points.

(** A distance function that is never below the largest finite double. *)
Definition far_apart (x y : float) : float := infinity.

(** Six points in two tight groups, 50 rounds, damping 0.9 (as a double:
    0x1.ccccccccccccdp-1). *)
Definition two_groups : list float := [0; 1; 3; 20; 21; 22]%float.
Definition two_groups_visitor : AffinityProp.AffinityPropVisitor float :=
  AffinityProp.compute 0%float
    (AffinityProp.make 50 sq_diff 0x1.ccccccccccccdp-1%float)
    (seq 0 6) two_groups.

(** Three points; one round with damping 0.5. *)
Definition three_points : list float := [0; 1; 3]%float.
Definition one_round : AffinityProp.AffinityPropVisitor float :=
  AffinityProp.make 1 sq_diff 0.5%float.

(** Two points, on which one round elects nothing; and the instance that
    has already been run on [three_points]. *)
Definition two_points : list float := [0; 1]%float.
Definition run_before : AffinityProp.AffinityPropVisitor float :=
  AffinityProp.compute 0%float one_round (seq 0 3) three_points.

(** Four points in two pairs: ten rounds with damping 0.5 elect
    positions 1 and 2.  [new_points] is another column, to be grouped by
    these exemplars. *)
Definition two_pairs : list float := [0; 1; 100; 101]%float.
Definition two_pairs_visitor : AffinityProp.AffinityPropVisitor float :=
  AffinityProp.compute 0%float (AffinityProp.make 10 sq_diff 0.5%float)
    (seq 0 4) two_pairs.
Definition new_points : list float := [99; 2; 0; 1; 98]%float.

(** A column with a missing value: five rounds with damping 0.5 elect
    positions 1 and 2. *)
Definition with_nan : list float := [0; 1; 3; nan]%float.
Definition with_nan_visitor : AffinityProp.AffinityPropVisitor float :=
  AffinityProp.compute 0%float (AffinityProp.make 5 sq_diff 0.5%float)
    (seq 0 4) with_nan.

(** One point; and two points of which one is a NaN. *)
Definition one_point : list float := [5]%float.
Definition nan_pair : list float := [nan; 1]%float.

(* ------------------------------------------------------------------ *)
(** ** Constructor defaults and notions of the further properties *)

(** The default damping factor [0.9], as the compiler reads it. *)
Definition default_damping : float := 0x1.ccccccccccccdp-1%float.

(** [KMeansVisitor<K, double>(num_of_iter)]: the distance function
    defaults to the squared difference. *)
Definition kmeans_default (K num_of_iter : nat) : KMeans.KMeansVisitor float :=
  KMeans.make K 0%float num_of_iter sq_diff.

(** [AffinityPropVisitor<double>(num_of_iter)]: squared difference and
    damping [0.9]. *)
Definition ap_default (num_of_iter : nat) : AffinityProp.AffinityPropVisitor float :=
  AffinityProp.make num_of_iter sq_diff default_damping.

(** Two doubles that are opposite, or both zeros. *)
Definition mirror (A B : spec_float) : Prop :=
  B = SFopp A \/ (exists s s', A = S754_zero s /\ B = S754_zero s').

(** The double is a zero or a finite number: not an infinity, not a NaN. *)
Definition finite_double (x : float) : bool :=
  match Prim2SF x with
  | S754_zero _ | S754_finite _ _ _ => true
  | _ => false
  end.

(** The visitor with another iteration cap. *)
Definition with_cap {T : Type} (v : KMeans.KMeansVisitor T) (num_of_iter : nat)
  : KMeans.KMeansVisitor T :=
  {| KMeans.iter_num_ := num_of_iter;
     KMeans.dfunc_ := KMeans.dfunc_ v;
     KMeans.k_means_ := KMeans.k_means_ v |}.

(** The sum of the availability update for column [j], over the
    positions that [skip] leaves in, in increasing position, from [0.0]. *)
Definition sum_except (n : nat) (respon : list float) (j : nat)
    (skip : nat -> bool) : float :=
  fold_left
    (fun sum ii => if skip ii then sum
                   else AffinityProp.sum_step n respon j ii sum)
    (seq 0 n) 0%float.

(** The value the availability update stores in [avail[j * n + i]]. *)
Definition code_avail (d : float) (n : nat) (respon avail : list float)
    (i j : nat) : float :=
  if i =? j then
    ((1 - d) * sum_except n respon j (fun ii => Nat.eqb ii i) +
     d * nth (j * n + i) avail 0)%float
  else
    ((1 - d) *
     Double.std_min 0
       (nth (j * n + j) respon 0 +
        sum_except n respon j (fun ii => Nat.eqb ii i || Nat.eqb ii j)) +
     d * nth (j * n + i) avail 0)%float.

(* ------------------------------------------------------------------ *)
(** * Properties *)

(** ** The order of doubles *)

Section DoubleFacts.
Import Double.

Lemma SFltb_key (x y : spec_float) :
  SFltb x y = true <->
  x <> S754_nan /\ y <> S754_nan /\ key_lt (key x) (key y).
Proof.
  unfold SFltb, SFcompare.
  destruct x as [sx | [] | | [] mx ex], y as [sy | [] | | [] my ey];
    cbn [key key_lt];
    try change (PosDef.Pos.compare_cont Eq mx my) with (Pos.compare mx my);
    try (destruct (Z.compare_spec ex ey) as [E | E | E];
         [ destruct (Pos.compare_spec mx my) as [F | F | F]; cbn [CompOpp]
         | | ]);
    try destruct sx; try destruct sy;
    (split;
     [ try discriminate; intros _; repeat split; try discriminate; lia
     | intros (A & B & C); try reflexivity; try congruence; try lia ]).
Qed.

Lemma dlt_key (x y : float) :
  (x <? y)%float = true <->
  ordered x /\ ordered y /\ key_lt (key (Prim2SF x)) (key (Prim2SF y)).
Proof. rewrite ltb_spec. apply SFltb_key. Qed.

Lemma key_lt_trans p q r : key_lt p q -> key_lt q r -> key_lt p r.
Proof.
  destruct p as [[a1 b1] c1], q as [[a2 b2] c2], r as [[a3 b3] c3].
  unfold key_lt. lia.
Qed.

Lemma key_lt_total p q : key_lt p q \/ p = q \/ key_lt q p.
Proof.
  destruct p as [[a1 b1] c1], q as [[a2 b2] c2]. unfold key_lt.
  destruct (Z.lt_total a1 a2) as [A | [A | A]];
    destruct (Z.lt_total b1 b2) as [B | [B | B]];
    destruct (Z.lt_total c1 c2) as [C | [C | C]];
    subst; auto; try lia; right; right; lia.
Qed.

Lemma key_lt_irrefl p : ~ key_lt p p.
Proof. destruct p as [[a b] c]. unfold key_lt. lia. Qed.

(** [<] is transitive. *)
Lemma dlt_trans (a b c : float) :
  (a <? b)%float = true -> (b <? c)%float = true -> (a <? c)%float = true.
Proof.
  rewrite !dlt_key. intros (A & B & K1) (_ & C & K2).
  repeat split; auto. eapply key_lt_trans; eauto.
Qed.

Lemma dlt_irrefl (a : float) : (a <? a)%float = false.
Proof.
  destruct (a <? a)%float eqn:E; [ | reflexivity ].
  apply dlt_key in E. destruct E as (_ & _ & K).
  now apply key_lt_irrefl in K.
Qed.

(** [a < b] and [not (c < b)] give [a < c] when [c] is not a NaN. *)
Lemma dlt_nlt_trans (a b c : float) :
  (a <? b)%float = true -> (c <? b)%float = false -> ordered c ->
  (a <? c)%float = true.
Proof.
  intros H1 H2 Oc. pose proof H1 as H1'.
  apply dlt_key in H1'. destruct H1' as (Oa & Ob & K1).
  apply dlt_key. repeat split; auto.
  destruct (key_lt_total (key (Prim2SF c)) (key (Prim2SF b))) as [K | [K | K]].
  - assert (E : (c <? b)%float = true) by (apply dlt_key; auto).
    congruence.
  - now rewrite K.
  - eapply key_lt_trans; eauto.
Qed.

(** [not (b < a)] and [c < a]: then [not (b < c)]: what is below the
    running minimum is below everything seen so far. *)
Lemma dnlt_lt_trans (a b c : float) :
  (b <? a)%float = false -> (c <? a)%float = true -> (b <? c)%float = false.
Proof.
  intros H1 H2. destruct (b <? c)%float eqn:E; [ | reflexivity ].
  rewrite (dlt_trans _ _ _ E H2) in H1. discriminate.
Qed.

Lemma dlt_ordered_l (a b : float) : (a <? b)%float = true -> ordered a.
Proof. intros H. now apply dlt_key in H. Qed.

(** [std::max(1.0, x)] is [1.0], or [x] when [1.0 < x]: never zero. *)
Lemma std_max_one (x : float) :
  (std_max 1 x = 1%float /\ (1 <? x)%float = false) \/
  (std_max 1 x = x /\ (1 <? x)%float = true).
Proof. unfold std_max. destruct (1 <? x)%float; auto. Qed.

Lemma std_max_one_pos (x : float) : (0 <? std_max 1 x)%float = true.
Proof.
  destruct (std_max_one x) as [[-> _] | [-> H]]; [ reflexivity | ].
  eapply dlt_trans; [ | exact H ]. reflexivity.
Qed.

End DoubleFacts.

(** ** Vectors and loops *)

Section VectorFacts.
Context {A : Type}.
Implicit Types (v : list A) (x d : A).

Lemma vset_length v k x : length (vset v k x) = length v.
Proof.
  revert k; induction v as [ | h t IH]; intros [ | k]; simpl; auto.
Qed.

Lemma nth_vset_eq v k x d : k < length v -> nth k (vset v k x) d = x.
Proof.
  revert k; induction v as [ | h t IH]; intros [ | k] H; simpl in *;
    try lia; auto. apply IH; lia.
Qed.

Lemma nth_vset_neq v k k' x d : k <> k' -> nth k' (vset v k x) d = nth k' v d.
Proof.
  revert k k'; induction v as [ | h t IH]; intros [ | k] [ | k'] H; simpl;
    auto; try congruence.
Qed.

Lemma nth_vset v k k' x d :
  k < length v ->
  nth k' (vset v k x) d = if Nat.eq_dec k k' then x else nth k' v d.
Proof.
  intros H. destruct (Nat.eq_dec k k') as [<- | N].
  - now apply nth_vset_eq.
  - now apply nth_vset_neq.
Qed.

Lemma nth_repeat_lt (x d : A) n k : k < n -> nth k (repeat x n) d = x.
Proof.
  revert k; induction n as [ | n IH]; intros [ | k] H; simpl; try lia; auto.
  apply IH; lia.
Qed.

Lemma resize_nil n (x : A) : resize [] n x = repeat x n.
Proof. unfold resize. rewrite firstn_nil. simpl. now rewrite Nat.sub_0_r. Qed.
End VectorFacts.

Section Loops.
Context {S : Type}.
Implicit Types (body : nat -> S -> S) (s : S).

Lemma for_loop_empty lo hi body s : hi <= lo -> for_loop lo hi body s = s.
Proof.
  intros H. unfold for_loop. replace (hi - lo) with 0 by lia. reflexivity.
Qed.

Lemma for_loop_last lo hi body s :
  lo <= hi ->
  for_loop lo (Datatypes.S hi) body s = body hi (for_loop lo hi body s).
Proof.
  intros H. unfold for_loop.
  replace (Datatypes.S hi - lo) with (Datatypes.S (hi - lo)) by lia.
  rewrite seq_S, fold_left_app. simpl.
  replace (lo + (hi - lo)) with hi by lia. reflexivity.
Qed.

(** Invariant rule: [P i] holds of the state when the loop variable is [i]. *)
Lemma for_loop_inv (P : nat -> S -> Prop) lo hi body s :
  lo <= hi ->
  P lo s ->
  (forall i s', lo <= i < hi -> P i s' -> P (Datatypes.S i) (body i s')) ->
  P hi (for_loop lo hi body s).
Proof.
  intros Hle H0 Hstep. induction hi as [ | hi IH].
  - replace lo with 0 in * by lia. now rewrite for_loop_empty.
  - destruct (Nat.eq_dec lo (Datatypes.S hi)) as [-> | N].
    + now rewrite for_loop_empty.
    + rewrite for_loop_last by lia. apply Hstep; [ lia | ].
      apply IH; [ lia | ]. intros i s' Hi. apply Hstep. lia.
Qed.

(** A loop whose every body leaves the state alone leaves it alone,
    whatever the number of turns. *)
Lemma for_loop_skip lo hi body s :
  (forall i s', lo <= i < hi -> body i s' = s') -> for_loop lo hi body s = s.
Proof.
  intros H. unfold for_loop.
  assert (G : forall i, In i (seq lo (hi - lo)) -> lo <= i < hi)
    by (intros i Hi; apply in_seq in Hi; lia).
  revert G. generalize (seq lo (hi - lo)) as l.
  induction l as [ | i l IH]; intros G; simpl; [ reflexivity | ].
  rewrite H by (apply G; now left). apply IH. intros j Hj. apply G. now right.
Qed.
End Loops.

(** [loop_inv P]: establish the invariant [P] for the first counted loop
    of the goal; leaves the three premises of [for_loop_inv] and then
    the goal with [P hi result] among the hypotheses. *)
Ltac loop_inv P :=
  match goal with
  | |- context [for_loop ?lo ?hi ?b ?s] =>
      let G := fresh "G" in
      assert (G : P hi (for_loop lo hi b s));
      [ apply (for_loop_inv P lo hi b s) | cbv beta in G ]
  end.

Section Nearest.
Context {Ix : Type} (some : nat -> Ix) (none : Ix) (dist : nat -> float).
Local Abbreviation scanned := (scanned some none dist).

  
Lemma nearest_scanned k : scanned k (nearest some none dist k).
Proof.
  unfold nearest. apply for_loop_inv with (P := scanned); [ lia | | ].
  - left. split; [ reflexivity | intros c Hc; lia ].
  - intros i [md mi] Hi [[E A] | (g & Hg & E & B1 & B2 & B3)].
    + inversion E; subst; clear E.
      destruct (dist i <? Double.max)%float eqn:D.
      * right. exists i. repeat split; auto.
        -- intros c Hc. destruct (Nat.eq_dec c i) as [-> | N].
           ++ apply dlt_irrefl.
           ++ eapply dnlt_lt_trans; [ apply A; lia | exact D ].
        -- intros c Hc Oc.
           eapply dlt_nlt_trans; [ exact D | apply A; lia | exact Oc ].
      * left. split; [ reflexivity | ].
        intros c Hc. destruct (Nat.eq_dec c i) as [-> | N]; auto.
        apply A; lia.
    + inversion E; subst; clear E.
      destruct (dist i <? dist g)%float eqn:D.
      * right. exists i. repeat split; auto.
        -- eapply dlt_trans; eauto.
        -- intros c Hc. destruct (Nat.eq_dec c i) as [-> | N].
           ++ apply dlt_irrefl.
           ++ eapply dnlt_lt_trans; [ apply B2; lia | exact D ].
        -- intros c Hc Oc.
           eapply dlt_nlt_trans; [ exact D | apply B2; lia | exact Oc ].
      * right. exists g. repeat split; auto.
        intros c Hc. destruct (Nat.eq_dec c i) as [-> | N]; auto.
        apply B2; lia.
Qed.
End Nearest.

Section NearestFacts.
Variable dist : nat -> float.
Variable k : nat.

(** The index variable is still unassigned after the scan exactly when no
    candidate was strictly below the largest finite double. *)
Lemma nearest_none_iff :
  snd (nearest Some None dist k) = None <->
  forall c, c < k -> (dist c <? Double.max)%float = false.
Proof.
  destruct (nearest_scanned Some None dist k) as [[E A] | (g & Hg & E & B & _)];
    rewrite E; simpl.
  - split; auto.
  - split; [ discriminate | intros A; rewrite A in B by lia; discriminate ].
Qed.

(** With at least one candidate and every distance below the largest
    finite double, the scan ends on the nearest candidate, the lowest
    index among equally near ones. *)
Lemma nearest_some :
  0 < k ->
  (forall c, c < k -> (dist c <? Double.max)%float = true) ->
  exists g, snd (nearest Some None dist k) = Some g /\ g < k /\
    (forall c, c < k -> (dist c <? dist g)%float = false) /\
    (forall c, c < g -> (dist g <? dist c)%float = true).
Proof.
  intros Hk Hd.
  destruct (nearest_scanned Some None dist k) as [[E A] | (g & Hg & E & B1 & B2 & B3)].
  - specialize (Hd 0 Hk). rewrite A in Hd by exact Hk. discriminate.
  - exists g. rewrite E. simpl. repeat split; auto.
    intros c Hc. apply B3; [ exact Hc | ].
    eapply dlt_ordered_l. apply Hd. lia.
Qed.
End NearestFacts.

(** ** The point loop of [get_clusters] *)

Section AssignPoints.
Variable choose : nat -> option nat.

Lemma push_back_length cl m p : length (push_back cl m p) = length cl.
Proof. unfold push_back. apply vset_length. Qed.

Lemma nth_push_back cl m p c :
  m < length cl ->
  nth c (push_back cl m p) [] =
  if Nat.eq_dec m c then nth c cl [] ++ [p] else nth c cl [].
Proof.
  intros H. unfold push_back. rewrite nth_vset by exact H.
  destruct (Nat.eq_dec m c) as [-> | N]; reflexivity.
Qed.

(** When every point finds an index inside [clusters], the loop appends
    the points, in column order, to the groups they chose. *)
Lemma assign_points_some (g : nat -> nat) n init :
  (forall j, j < n -> choose j = Some (g j) /\ g j < length init) ->
  exists cl, assign_points choose n init = Some cl /\
    length cl = length init /\
    forall m, m < length init ->
      nth m cl [] =
      nth m init [] ++ map Elem (filter (fun j => g j =? m) (seq 0 n)).
Proof.
  intros H. unfold assign_points.
  apply for_loop_inv with
    (P := fun i ocl => exists cl, ocl = Some cl /\
            length cl = length init /\
            forall m, m < length init ->
              nth m cl [] =
              nth m init [] ++ map Elem (filter (fun j => g j =? m) (seq 0 i)));
    [ lia | | ].
  - exists init. repeat split; auto.
    intros m Hm. simpl. now rewrite app_nil_r.
  - intros i ocl Hi (cl & -> & L & N).
    destruct (H i) as [-> G]; [ lia | ].
    exists (push_back cl (g i) (Elem i)). split; [ reflexivity | ].
    split; [ now rewrite push_back_length | ].
    intros m Hm. rewrite nth_push_back by lia.
    rewrite seq_S, filter_app, map_app, app_assoc, <- N by exact Hm. simpl.
    destruct (Nat.eq_dec (g i) m) as [-> | D].
    + now rewrite Nat.eqb_refl.
    + apply Nat.eqb_neq in D. rewrite D. simpl. now rewrite app_nil_r.
Qed.

(** A point that leaves [min_idx] unassigned makes the call undefined. *)
Lemma assign_points_none n init j :
  j < n -> choose j = None -> assign_points choose n init = None.
Proof.
  intros Hj Hc. unfold assign_points.
  assert (G : (fun i ocl => j < i -> ocl = None) n
                (for_loop 0 n
                   (fun j ocl =>
                      match ocl with
                      | None => None
                      | Some cl =>
                          match choose j with
                          | None => None
                          | Some m => Some (push_back cl m (Elem j))
                          end
                      end) (Some init)));
    [ | exact (G Hj) ].
  apply for_loop_inv; [ lia | lia | ].
  intros i ocl Hi IH Hji. destruct (Nat.eq_dec i j) as [-> | N].
  - rewrite Hc. now destruct ocl.
  - rewrite IH by lia. reflexivity.
Qed.

Lemma in_elem_filter (g : nat -> nat) n m j :
  In (Elem j) (map Elem (filter (fun j => g j =? m) (seq 0 n))) <->
  j < n /\ g j = m.
Proof.
  rewrite in_map_iff. split.
  - intros (x & E & Hx). inversion E; subst.
    apply filter_In in Hx. destruct Hx as [Hx Hg].
    apply in_seq in Hx. apply Nat.eqb_eq in Hg. lia.
  - intros [Hj Hg]. exists j. split; [ reflexivity | ].
    apply filter_In. split; [ apply in_seq; lia | now apply Nat.eqb_eq ].
Qed.

Lemma nodup_filter_seq (f : nat -> bool) n : NoDup (filter f (seq 0 n)).
Proof. apply NoDup_filter, seq_NoDup. Qed.
End AssignPoints.

(* ------------------------------------------------------------------ *)
(** ** K-means: the refinement loop *)

Section KMeansFacts.
Variable K : nat.
Variable T : Type.
Variable I : Type.
Variable T0 : T.
Variable tadd : T -> T -> T.
Variable tdiv : T -> float -> T.
Implicit Types (v : KMeans.KMeansVisitor T) (col km : list T).

Lemma nth_map_seq {B : Type} (f : nat -> B) n c d :
  c < n -> nth c (map f (seq 0 n)) d = f c.
Proof.
  intros H. rewrite nth_indep with (d' := f 0) by (now rewrite length_map, length_seq).
  rewrite map_nth, seq_nth by exact H. reflexivity.
Qed.

Lemma list_eq_map_seq {B : Type} (f : nat -> B) n (l : list B) d :
  length l = n -> (forall c, c < n -> nth c l d = f c) -> l = map f (seq 0 n).
Proof.
  intros L H. apply nth_ext with (d := d) (d' := d).
  - now rewrite length_map, length_seq.
  - intros c Hc. rewrite H, nth_map_seq by lia. reflexivity.
Qed.

(** Seeding overwrites every centroid: nothing of the previous content
    of [k_means_] survives. *)
Lemma pick_centroids_spec col rd km :
  length km = K ->
  KMeans.pick_centroids K T0 col rd km = map (fun c => nth (rd c) col T0) (seq 0 K).
Proof.
  intros L. unfold KMeans.pick_centroids.
  loop_inv (fun i km' => length km' = K /\
              forall c, c < i -> nth c km' T0 = nth (rd c) col T0).
  - lia.
  - split; [ exact L | intros c Hc; lia ].
  - intros i km' Hi [L' N]. split; [ now rewrite vset_length | ].
    intros c Hc. rewrite nth_vset by lia.
    destruct (Nat.eq_dec i c) as [-> | D]; [ reflexivity | apply N; lia ].
  - destruct G as [L' N]. now apply list_eq_map_seq with (d := T0).
Qed.

Section Update.
Variable dfunc : T -> T -> float.
Variable new_means : list T.
Variable counts : list float.
Variable km : list T.
Local Abbreviation moved := (moved T0 tdiv dfunc new_means counts km).

(** The update loop, cluster by cluster: a centroid is replaced exactly
    when it moved by more than the threshold, and [done] says that none
    did. *)
Lemma divide_spec :
  length km = K ->
  KMeans.divide K T0 tdiv dfunc new_means counts km =
  (forallb (fun c => negb (moved c)) (seq 0 K),
   map (fun c => if moved c
                 then KMeans.new_value T0 tdiv new_means counts c
                 else nth c km T0) (seq 0 K)).
Proof.
  intros L. unfold KMeans.divide.
  loop_inv (fun i (st : bool * list T) =>
              length (snd st) = K /\
              fst st = forallb (fun c => negb (moved c)) (seq 0 i) /\
              forall c, nth c (snd st) T0 =
                if (c <? i) && moved c
                then KMeans.new_value T0 tdiv new_means counts c
                else nth c km T0); [ lia | simpl; auto | | ].
  { intros i [done km'] Hi (L' & D & N). simpl in L', D, N.
    assert (Ei : nth i km' T0 = nth i km T0).
    { rewrite N. now rewrite Nat.ltb_irrefl. }
    rewrite Ei. fold (moved i).
    rewrite seq_S, forallb_app. simpl. rewrite andb_true_r, <- D.
    destruct (moved i) eqn:M; simpl.
    - split; [ now rewrite vset_length | ]. split; [ now rewrite andb_false_r | ].
      intros c. destruct (Nat.eq_dec i c) as [<- | Dc].
      + rewrite nth_vset_eq by lia.
        replace (i <? S i) with true by (symmetry; apply Nat.ltb_lt; lia).
        now rewrite M.
      + rewrite nth_vset_neq by exact Dc. rewrite N.
        replace (c <? S i) with (c <? i); [ reflexivity | ].
        destruct (Nat.ltb_spec c i), (Nat.ltb_spec c (S i)); auto; lia.
    - split; [ exact L' | ]. split; [ now rewrite andb_true_r | ].
      intros c. rewrite N. destruct (Nat.eq_dec i c) as [<- | Dc].
      + rewrite M, !andb_false_r. reflexivity.
      + replace (c <? S i) with (c <? i); [ reflexivity | ].
        destruct (Nat.ltb_spec c i), (Nat.ltb_spec c (S i)); auto; lia. }
  destruct G as (L' & D & N).
  destruct (for_loop 0 K _ _) as [done km']. simpl in *. f_equal; [ exact D | ].
  apply list_eq_map_seq with (d := T0); [ exact L' | ].
  intros c Hc. rewrite N.
  replace (c <? K) with true by (symmetry; apply Nat.ltb_lt; lia). reflexivity.
Qed.
End Update.
End KMeansFacts.

Lemma SFcompare_antisym (x y : spec_float) :
  SFcompare y x = option_map CompOpp (SFcompare x y).
Proof.
  unfold SFcompare.
  destruct x as [sx | [] | | [] mx ex], y as [sy | [] | | [] my ey];
    try destruct sx; try destruct sy; try reflexivity; simpl;
    change (PosDef.Pos.compare_cont Eq my mx) with (Pos.compare my mx);
    change (PosDef.Pos.compare_cont Eq mx my) with (Pos.compare mx my);
    rewrite (Z.compare_antisym ex ey), (Pos.compare_antisym mx my);
    destruct (ex ?= ey)%Z, (mx ?= my)%positive; reflexivity.
Qed.

(** [a <= b] excludes [a > b]. *)
Lemma dle_not_gt (a b : float) :
  (a <=? b)%float = true -> Double.gtb a b = false.
Proof.
  unfold Double.gtb. rewrite leb_spec, ltb_spec. unfold SFleb, SFltb.
  rewrite (SFcompare_antisym (Prim2SF a) (Prim2SF b)).
  destruct (SFcompare (Prim2SF a) (Prim2SF b)) as [[] | ]; simpl; congruence.
Qed.

Lemma SFcompare_pos_finite_eq m e (y : spec_float) :
  SFcompare (S754_finite false m e) y = Some Eq -> y = S754_finite false m e.
Proof.
  unfold SFcompare. destruct y as [s | s | | s my ey];
    try discriminate; try (destruct s; discriminate).
  destruct s; [ discriminate | ].
  change (PosDef.Pos.compare_cont Eq m my) with (Pos.compare m my).
  destruct (Z.compare_spec e ey) as [E | E | E]; try discriminate.
  destruct (Pos.compare_spec m my) as [F | F | F]; try discriminate.
  now subst.
Qed.

(** [1.0 <= x] and not [1.0 < x]: [x] is the double [1.0]. *)
Lemma dle_one_eq (x : float) :
  (1 <=? x)%float = true -> (1 <? x)%float = false -> x = 1%float.
Proof.
  rewrite leb_spec, ltb_spec. unfold SFleb, SFltb. intros H1 H2.
  apply Prim2SF_inj.
  change (Prim2SF 1) with (S754_finite false 4503599627370496 (-52)) in *.
  apply SFcompare_pos_finite_eq.
  destruct (SFcompare _ (Prim2SF x)) as [[] | ]; congruence.
Qed.

Lemma forallb_ext_seq (f g : nat -> bool) lo n :
  (forall c, lo <= c < lo + n -> f c = g c) ->
  forallb f (seq lo n) = forallb g (seq lo n).
Proof.
  revert lo. induction n as [ | n IH]; intros lo H; simpl; [ reflexivity | ].
  rewrite H by lia. f_equal. apply IH. intros c Hc. apply H. lia.
Qed.

Section KMeansLoop.
Variable K : nat.
Variable T : Type.
Variable T0 : T.
Variable tadd : T -> T -> T.
Variable tdiv : T -> float -> T.
Variable dfunc : T -> T -> float.
Variable col : list T.
Variable col_size : nat.

Local Abbreviation iteration := (KMeans.iteration K T0 tadd tdiv dfunc col col_size).
Local Abbreviation iterate := (KMeans.iterate K T0 tadd tdiv dfunc col col_size).
Local Abbreviation sum_and_count := (KMeans.sum_and_count K T0 tadd col col_size).
Local Abbreviation find_assignments :=
  (KMeans.find_assignments K T0 dfunc col col_size).
Local Abbreviation new_centroids :=
  (new_centroids K T0 tadd tdiv dfunc col col_size).
Local Abbreviation moves := (moves K T0 tadd tdiv dfunc col col_size).
Local Abbreviation state_after :=
  (state_after K T0 tadd tdiv dfunc col col_size).

Lemma iteration_spec (st : list T * list nat) :
  length (fst st) = K ->
  iteration st =
  (forallb (fun c => negb (moves st c)) (seq 0 K),
   (map (fun c => if moves st c then nth c (new_centroids st) T0
                  else nth c (fst st) T0) (seq 0 K),
    find_assignments (fst st) (snd st))).
Proof.
  destruct st as [km asg]. simpl. intros L.
  unfold KMeans.iteration, moves, new_centroids. simpl.
  destruct (sum_and_count (find_assignments km asg)) as [nm cnt].
  rewrite divide_spec by exact L. f_equal.
  - apply forallb_ext_seq. intros c Hc.
    unfold moved. rewrite nth_map_seq by lia. reflexivity.
  - f_equal. apply map_ext_in. intros c Hc. apply in_seq in Hc.
    unfold moved. rewrite nth_map_seq by lia. reflexivity.
Qed.

Lemma iteration_length (st : list T * list nat) :
  length (fst st) = K -> length (fst (snd (iteration st))) = K.
Proof.
  intros L. rewrite iteration_spec by exact L. simpl.
  now rewrite length_map, length_seq.
Qed.

Lemma state_after_S k st :
  state_after (S k) st = state_after k (snd (iteration st)).
Proof. unfold state_after. now rewrite Nat.iter_succ_r. Qed.

Lemma state_after_length k st :
  length (fst st) = K -> length (fst (state_after k st)) = K.
Proof.
  revert st. induction k as [ | k IH]; intros st L; [ exact L | ].
  rewrite state_after_S. apply IH. now apply iteration_length.
Qed.

(** How long the refinement loop runs: it leaves at the first turn whose
    [done] flag is set, and only there. *)
Lemma iterate_spec left st :
  let r := snd (iterate left st) in
  r <= left /\
  fst (iterate left st) = state_after r st /\
  (forall k, k + 1 < r -> fst (iteration (state_after k st)) = false) /\
  (r < left -> 0 < r /\ fst (iteration (state_after (r - 1) st)) = true) /\
  ((forall k, k < left -> fst (iteration (state_after k st)) = false) ->
   r = left).
Proof.
  revert st. induction left as [ | left IH]; intros st; simpl.
  - repeat split; auto; intros; lia.
  - destruct (iteration st) as [done st'] eqn:E.
    destruct done.
    + simpl. repeat split.
      * lia.
      * unfold state_after. simpl. now rewrite E.
      * intros k Hk. lia.
      * lia.
      * unfold state_after. simpl. now rewrite E.
      * intros H. specialize (H 0 ltac:(lia)). unfold state_after in H.
        simpl in H. rewrite E in H. discriminate.
    + specialize (IH st'). destruct (iterate left st') as [st'' n].
      simpl in *. destruct IH as (I1 & I2 & I3 & I4 & I5).
      assert (S' : forall k, state_after (S k) st = state_after k st').
      { intros k. rewrite state_after_S, E. reflexivity. }
      repeat split.
      * lia.
      * now rewrite S'.
      * intros [ | k] Hk.
        -- unfold state_after. simpl. now rewrite E.
        -- rewrite S'. apply I3. lia.
      * lia.
      * destruct I4 as [I4 I4']; [ lia | ].
        match goal with
        | |- context [state_after ?x st] => replace x with (S (n - 1)) by lia
        end.
        now rewrite S'.
      * intros H. f_equal. apply I5. intros k Hk. rewrite <- S'. apply H. lia.
Qed.
End KMeansLoop.

(* ------------------------------------------------------------------ *)
(** ** K-means: [operator()] and [get_clusters] *)

Lemma below_max_all_spec dist n k :
  below_max_all dist n k = true ->
  forall j c, j < n -> c < k -> (dist j c <? Double.max)%float = true.
Proof.
  unfold below_max_all. rewrite forallb_forall. intros H j c Hj Hc.
  specialize (H j ltac:(apply in_seq; lia)). rewrite forallb_forall in H.
  apply H. apply in_seq. lia.
Qed.

Section KMeansClusters.
Variable K : nat.
Variable T : Type.
Variable I : Type.
Variable T0 : T.
Implicit Types (v : KMeans.KMeansVisitor T) (col : list T) (idx : list I).
Local Abbreviation km_dist := (km_dist T0).

(** The K groups before the point loop: each holds its centroid. *)
Lemma initial_clusters :
  for_loop 0 K (fun i cl => push_back cl i (Mean i)) (repeat [] K) =
  map (fun m => [Mean m]) (seq 0 K).
Proof.
  loop_inv (fun i (cl : list (list ptr)) =>
              length cl = K /\
              forall m, m < K ->
                nth m cl [] = if m <? i then [Mean m] else []).
  - lia.
  - split; [ apply repeat_length | ].
    intros m Hm. now rewrite nth_repeat_lt.
  - intros i cl Hi [L N]. split; [ now rewrite push_back_length | ].
    intros m Hm. rewrite nth_push_back by lia.
    destruct (Nat.eq_dec i m) as [-> | D].
    + rewrite N, Nat.ltb_irrefl by lia.
      replace (m <? S m) with true by (symmetry; apply Nat.ltb_lt; lia).
      reflexivity.
    + rewrite N by lia.
      destruct (Nat.ltb_spec m i), (Nat.ltb_spec m (S i)); auto; lia.
  - destruct G as [L N]. apply list_eq_map_seq with (d := []); [ exact L | ].
    intros c Hc. rewrite N by lia.
    now replace (c <? K) with true by (symmetry; apply Nat.ltb_lt; lia).
Qed.

(** [get_clusters] on any visitor state with K centroids, under the
    precondition on the distances. *)
Lemma get_clusters_partition v idx col :
  let n := Nat.min (length idx) (length col) in
  1 <= K ->
  below_max_all (km_dist v col) n K = true ->
  exists clusters,
    KMeans.get_clusters K T0 v idx col = Some clusters /\
    length clusters = K /\
    (forall m, m < K ->
       exists pts, nth m clusters [] = Mean m :: map Elem pts /\
                   NoDup pts /\ forall j, In j pts -> j < n) /\
    (forall j, j < n ->
       exists m, m < K /\ In (Elem j) (nth m clusters []) /\
         forall m', m' < K -> In (Elem j) (nth m' clusters []) -> m' = m) /\
    (forall j m, j < n -> m < K -> In (Elem j) (nth m clusters []) ->
       (forall c, c < K -> (km_dist v col j c <? km_dist v col j m)%float = false) /\
       (forall c, c < m -> (km_dist v col j m <? km_dist v col j c)%float = true)).
Proof.
  intros n HK Hd. pose proof (below_max_all_spec _ _ _ Hd) as Hd'.
  set (g := fun j => match KMeans.min_idx K T0 v col j with
                     | Some m => m | None => 0 end).
  assert (Hg : forall j, j < n ->
             KMeans.min_idx K T0 v col j = Some (g j) /\ g j < K /\
             (forall c, c < K ->
                (km_dist v col j c <? km_dist v col j (g j))%float = false) /\
             (forall c, c < g j ->
                (km_dist v col j (g j) <? km_dist v col j c)%float = true)).
  { intros j Hj.
    destruct (nearest_some (km_dist v col j) K) as (m & E & Hm & N1 & N2);
      [ lia | intros c Hc; now apply Hd' | ].
    unfold g, KMeans.min_idx. fold (km_dist v col j). rewrite E. auto. }
  unfold KMeans.get_clusters. fold n. rewrite initial_clusters.
  destruct (assign_points_some (KMeans.min_idx K T0 v col) g n
              (map (fun m => [Mean m]) (seq 0 K))) as (cl & E & L & N).
  { intros j Hj. destruct (Hg j Hj) as (-> & G & _).
    rewrite length_map, length_seq. auto. }
  rewrite length_map, length_seq in L, N.
  assert (N' : forall m, m < K ->
             nth m cl [] =
             Mean m :: map Elem (filter (fun j => g j =? m) (seq 0 n))).
  { intros m Hm. rewrite N by exact Hm. now rewrite nth_map_seq. }
  assert (M : forall j m, m < K ->
             (In (Elem j) (nth m cl []) <-> j < n /\ g j = m)).
  { intros j m Hm. rewrite N' by exact Hm. simpl. rewrite in_elem_filter.
    split; [ intros [X | X]; [ discriminate | exact X ] | auto ]. }
  exists cl. split; [ exact E | ]. split; [ exact L | ]. repeat split.
  - intros m Hm. exists (filter (fun j => g j =? m) (seq 0 n)).
    split; [ now apply N' | ]. split; [ apply nodup_filter_seq | ].
    intros j Hj. apply filter_In in Hj. destruct Hj as [Hj _].
    apply in_seq in Hj. lia.
  - intros j Hj. exists (g j). destruct (Hg j Hj) as (_ & G & _).
    split; [ exact G | ]. split; [ apply M; auto | ].
    intros m' Hm' Hin. apply M in Hin; [ | exact Hm' ]. symmetry. tauto.
  - apply M in H1; [ | exact H0 ]. destruct H1 as [_ <-].
    destruct (Hg j H) as (_ & _ & G & _). exact G.
  - apply M in H1; [ | exact H0 ]. destruct H1 as [_ <-].
    destruct (Hg j H) as (_ & _ & _ & G). exact G.
Qed.

End KMeansClusters.

Section KMeansCompute.
Variable K : nat.
Variable T : Type.
Variable I : Type.
Variable T0 : T.
Variable tadd : T -> T -> T.
Variable tdiv : T -> float -> T.
Implicit Types (v : KMeans.KMeansVisitor T) (col : list T) (idx : list I).

Lemma calc_k_means_length v rd col n :
  length (KMeans.k_means_ v) = K ->
  length (KMeans.k_means_ (KMeans.calc_k_means_ K T0 tadd tdiv v rd col n)) = K.
Proof.
  intros L. unfold KMeans.calc_k_means_, KMeans.calc_k_means_trace.
  match goal with
  | |- context [KMeans.iterate K T0 tadd tdiv ?f ?c ?s ?l ?st] =>
      pose proof (iterate_spec K T T0 tadd tdiv f c s l st) as H;
      destruct (KMeans.iterate K T0 tadd tdiv f c s l st) as [[km asg] r]
  end.
  simpl in *. destruct H as (_ & E & _).
  change km with (fst (km, asg)). rewrite E. apply state_after_length. simpl.
  rewrite pick_centroids_spec by exact L. now rewrite length_map, length_seq.
Qed.

Lemma compute_length v rd idx col :
  length (KMeans.k_means_ v) = K ->
  length (KMeans.k_means_ (KMeans.compute K T0 tadd tdiv v rd idx col)) = K.
Proof. apply calc_k_means_length. Qed.

(** C4.  After [compute], with effective size [n >= K >= 1] and every
    distance strictly below the largest finite double, [get_clusters]
    returns exactly K groups; group [m] starts with the address of
    centroid [m] and continues with column positions only; every
    position below [n] occurs in exactly one group, once; and the group
    of a position is that of its nearest centroid, the lowest index among
    equally near ones. *)
Theorem kmeans_get_clusters_partition
    (v0 : KMeans.KMeansVisitor T) (rd : nat -> nat) (idx0 : list I)
    (col0 : list T) idx col :
  let v := KMeans.compute K T0 tadd tdiv v0 rd idx0 col0 in
  let n := Nat.min (length idx) (length col) in
  length (KMeans.k_means_ v0) = K ->
  1 <= K -> K <= n ->
  below_max_all (km_dist T0 v col) n K = true ->
  exists clusters,
    KMeans.get_clusters K T0 v idx col = Some clusters /\
    length clusters = K /\
    length (KMeans.get_result v) = K /\
    (forall m, m < K ->
       exists pts, nth m clusters [] = Mean m :: map Elem pts /\
                   KMeans.deref T0 v col (Mean m) = nth m (KMeans.get_result v) T0 /\
                   NoDup pts /\ forall j, In j pts -> j < n) /\
    (forall j, j < n ->
       exists m, m < K /\ In (Elem j) (nth m clusters []) /\
         forall m', m' < K -> In (Elem j) (nth m' clusters []) -> m' = m) /\
    (forall j m, j < n -> m < K -> In (Elem j) (nth m clusters []) ->
       (forall c, c < K -> (km_dist T0 v col j c <? km_dist T0 v col j m)%float = false) /\
       (forall c, c < m -> (km_dist T0 v col j m <? km_dist T0 v col j c)%float = true)).
Proof.
  intros v n L HK Hn Hd.
  destruct (get_clusters_partition K T I T0 v idx col HK Hd)
    as (cl & E & Lc & P1 & P2 & P3).
  exists cl. split; [ exact E | ]. split; [ exact Lc | ].
  split; [ now apply compute_length | ].
  split; [ | split; [ exact P2 | exact P3 ] ].
  intros m Hm. destruct (P1 m Hm) as (pts & Q1 & Q2 & Q3).
  exists pts. repeat split; auto.
Qed.
End KMeansCompute.

Lemma kmeans_get_clusters_partition_witness :
  let col := [0; 0; 0; 10; 10; 10]%float in
  let idx := [0; 1; 2; 3; 4; 5] in
  let v := KMeans.compute 2 0%float PrimFloat.add PrimFloat.div
             (KMeans.make 2 0%float 10 sq_diff)
             (fun c => match c with 0 => 0 | _ => 3 end) idx col in
  below_max_all (km_dist 0%float v col) 6 2 = true /\
  exists clusters,
    KMeans.get_clusters 2 0%float v idx col = Some clusters /\
    length clusters = 2.
Proof.
  intros col idx v. split; [ vm_compute; reflexivity | ].
  destruct (kmeans_get_clusters_partition 2 float nat 0%float
              PrimFloat.add PrimFloat.div
              (KMeans.make 2 0%float 10 sq_diff)
              (fun c => match c with 0 => 0 | _ => 3 end) idx col idx col)
    as (cl & E & L & _).
  - reflexivity.
  - lia.
  - simpl. lia.
  - vm_compute. reflexivity.
  - exists cl. split; [ exact E | exact L ].
Defined.

(* ------------------------------------------------------------------ *)
(** ** K-means: convergence test and adoption of the new centroids *)

Section KMeansConvergence.
Variable K : nat.
Variable T : Type.
Variable T0 : T.
Variable tadd : T -> T -> T.
Variable tdiv : T -> float -> T.
Variable dfunc : T -> T -> float.
Variable col : list T.
Variable col_size : nat.

Local Abbreviation iteration := (KMeans.iteration K T0 tadd tdiv dfunc col col_size).
Local Abbreviation iterate := (KMeans.iterate K T0 tadd tdiv dfunc col col_size).
Local Abbreviation new_centroids := (new_centroids K T0 tadd tdiv dfunc col col_size).
Local Abbreviation moves := (moves K T0 tadd tdiv dfunc col col_size).
Local Abbreviation state_after := (state_after K T0 tadd tdiv dfunc col col_size).

Lemma done_iff_none_moves (st : list T * list nat) :
  length (fst st) = K ->
  (fst (iteration st) = true <-> forall c, c < K -> moves st c = false).
Proof.
  intros L. rewrite iteration_spec by exact L. simpl.
  rewrite forallb_forall. split.
  - intros H c Hc. specialize (H c ltac:(apply in_seq; lia)).
    now apply negb_true_iff in H.
  - intros H c Hc. apply in_seq in Hc. apply negb_true_iff, H. lia.
Qed.

(** C3, as the code has it.  In a turn of the refinement loop that starts
    with K centroids: [done] is set exactly when no cluster's new
    centroid is farther than 1e-7 from the old one, in particular when
    all the distances are [<= 1e-7]; a cluster adopts its new centroid
    exactly when that distance is greater than 1e-7 and keeps the old
    one otherwise; the loop leaves at the first turn with [done] set,
    and runs all the configured turns when there is none. *)
Theorem kmeans_convergence_step (st : list T * list nat) (left : nat) :
  length (fst st) = K ->
  let old := fst st in
  let nc := new_centroids st in
  let r := snd (iterate left st) in
  ((forall c, c < K ->
      (dfunc (nth c nc T0) (nth c old T0) <=? KMeans.epsilon)%float = true) ->
   fst (iteration st) = true) /\
  (fst (iteration st) = true <->
   forall c, c < K ->
     Double.gtb (dfunc (nth c nc T0) (nth c old T0)) KMeans.epsilon = false) /\
  (forall c, c < K ->
     nth c (fst (snd (iteration st))) T0 =
     if Double.gtb (dfunc (nth c nc T0) (nth c old T0)) KMeans.epsilon
     then nth c nc T0 else nth c old T0) /\
  (fst (iteration st) = true -> iterate (S left) st = (snd (iteration st), 1)) /\
  r <= left /\
  fst (iterate left st) = state_after r st /\
  (forall k, k + 1 < r -> fst (iteration (state_after k st)) = false) /\
  (r < left -> 0 < r /\ fst (iteration (state_after (r - 1) st)) = true) /\
  ((forall k, k < left -> fst (iteration (state_after k st)) = false) ->
   r = left).
Proof.
  intros L old nc r.
  split; [ | split; [ | split; [ | split ] ] ].
  - intros H. apply done_iff_none_moves; [ exact L | ].
    intros c Hc. apply dle_not_gt. now apply H.
  - now apply done_iff_none_moves.
  - intros c Hc. rewrite iteration_spec by exact L. simpl.
    rewrite nth_map_seq by exact Hc. reflexivity.
  - intros H. simpl. destruct (iteration st) as [done st']. simpl in H.
    now subst.
  - apply iterate_spec.
Qed.
End KMeansConvergence.

Lemma float_neq (x y : float) : PrimFloat.Leibniz.eqb x y = false -> x <> y.
Proof.
  intros H E. apply FloatAxioms.Leibniz.eqb_spec in E. congruence.
Qed.

(** C3 as worded fails: in this turn cluster 1 moves from 10 to 15 and is
    adopted, cluster 0 moves from 0 to 2^-14, inside the threshold, and
    keeps its old centroid, so [k_means_] is [0; 15] and not the new
    centroids [2^-14; 15]. *)
Lemma kmeans_partial_adoption :
  ~ adopts_new_centroids 2 0%float PrimFloat.add PrimFloat.div sq_diff
      drift_col 4 drift_state.
Proof.
  unfold adopts_new_centroids. intros H.
  assert (E : fst (KMeans.iteration 2 0%float PrimFloat.add PrimFloat.div
                     sq_diff drift_col 4 drift_state) = false)
    by (vm_compute; reflexivity).
  specialize (H E). vm_compute in H.
  assert (N : 0%float <> 0x1p-14%float)
    by (apply float_neq; vm_compute; reflexivity).
  apply N. congruence.
Qed.

Lemma kmeans_convergence_step_witness :
  length (fst drift_state) = 2 /\
  nth 0 (fst (snd (KMeans.iteration 2 0%float PrimFloat.add PrimFloat.div
                     sq_diff drift_col 4 drift_state))) 0%float = 0%float /\
  nth 1 (fst (snd (KMeans.iteration 2 0%float PrimFloat.add PrimFloat.div
                     sq_diff drift_col 4 drift_state))) 0%float = 15%float.
Proof.
  split; [ reflexivity | ].
  destruct (kmeans_convergence_step 2 float 0%float PrimFloat.add PrimFloat.div
              sq_diff drift_col 4 drift_state 1) as (_ & _ & A & _).
  - reflexivity.
  - split.
    + rewrite (A 0) by lia. vm_compute. reflexivity.
    + rewrite (A 1) by lia. vm_compute. reflexivity.
Defined.

(* ------------------------------------------------------------------ *)
(** ** Counting in doubles

    [counts[cluster] += 1.0] never takes the count of a non-empty cluster
    below 1.0: from the binary64 addition of the standard library's
    specification ([SFadd]), a double that is at least 1.0 stays at
    least 1.0 when 1.0 is added. *)

Section CountingDoubles.
Local Open Scope Z_scope.

Lemma digits2_pos_lower (p : positive) :
  2 ^ (Zpos (digits2_pos p) - 1) <= Zpos p.
Proof.
  induction p as [p IH | p IH | ]; simpl digits2_pos.
  - rewrite Pos2Z.inj_succ.
    replace (Z.succ (Zpos (digits2_pos p)) - 1) with (Z.succ (Zpos (digits2_pos p) - 1)) by lia.
    rewrite Z.pow_succ_r by lia. lia.
  - rewrite Pos2Z.inj_succ.
    replace (Z.succ (Zpos (digits2_pos p)) - 1) with (Z.succ (Zpos (digits2_pos p) - 1)) by lia.
    rewrite Z.pow_succ_r by lia. lia.
  - simpl. lia.
Qed.

Lemma shr_1_m (r : shr_record) :
  0 <= shr_m r -> shr_m (shr_1 r) = shr_m r / 2.
Proof.
  destruct r as [m rr s]. simpl. intros H.
  destruct m as [ | [p | p | ] | p]; cbn [shr_m]; try lia.
  - reflexivity.
  - apply Z.div_unique with (r := 1); lia.
  - apply Z.div_unique with (r := 0); lia.
  - reflexivity.
Qed.

Lemma iter_pos_shr_1 (p : positive) (r : shr_record) :
  0 <= shr_m r ->
  shr_m (SpecFloat.iter_pos shr_1 p r) = shr_m r / 2 ^ Zpos p.
Proof.
  revert r. induction p as [p IH | p IH | ]; intros r H;
    simpl SpecFloat.iter_pos.
  - pose proof (Z.pow_pos_nonneg 2 (Zpos p) ltac:(lia) ltac:(lia)) as Q.
    assert (H1 : 0 <= shr_m (shr_1 r))
      by (rewrite shr_1_m by lia; apply Z.div_pos; lia).
    assert (H2 : 0 <= shr_m (SpecFloat.iter_pos shr_1 p (shr_1 r)))
      by (rewrite IH by lia; apply Z.div_pos; lia).
    rewrite IH, IH, shr_1_m by lia.
    replace (Z.pos p~1) with (1 + Z.pos p + Z.pos p) by lia.
    rewrite !Z.pow_add_r by lia. change (2 ^ 1) with 2.
    rewrite !Z.div_div by lia. f_equal. lia.
  - pose proof (Z.pow_pos_nonneg 2 (Zpos p) ltac:(lia) ltac:(lia)) as Q.
    assert (H2 : 0 <= shr_m (SpecFloat.iter_pos shr_1 p r))
      by (rewrite IH by lia; apply Z.div_pos; lia).
    rewrite IH, IH by lia.
    replace (Z.pos p~0) with (Z.pos p + Z.pos p) by lia.
    rewrite !Z.pow_add_r by lia.
    rewrite !Z.div_div by lia. reflexivity.
  - rewrite shr_1_m by lia. reflexivity.
Qed.

(** Shifting a positive mantissa by fewer bits than it has digits leaves
    a positive mantissa. *)
Lemma shr_positive (m : positive) (r s : bool) (e n : Z) :
  n <= Zpos (digits2_pos m) - 1 ->
  0 < shr_m (fst (shr (Build_shr_record (Zpos m) r s) e n)).
Proof.
  intros H. unfold shr. destruct n as [ | p | p]; simpl; try lia.
  rewrite iter_pos_shr_1 by (simpl; lia). simpl shr_m.
  pose proof (digits2_pos_lower m) as D.
  apply Z.div_str_pos. split; [ apply Z.pow_pos_nonneg; lia | ].
  etransitivity; [ | exact D ]. apply Z.pow_le_mono_r; lia.
Qed.

Lemma shr_exponent (mrs : shr_record) (e n : Z) :
  e <= snd (shr mrs e n).
Proof. unfold shr. destruct n; simpl; lia. Qed.

Lemma digits2_pos_upper (p : positive) :
  Zpos p < 2 ^ Zpos (digits2_pos p).
Proof.
  induction p as [p IH | p IH | ]; simpl digits2_pos.
  - rewrite Pos2Z.inj_succ, Z.pow_succ_r by lia. lia.
  - rewrite Pos2Z.inj_succ, Z.pow_succ_r by lia. lia.
  - simpl. lia.
Qed.

Lemma SFleb_pos_finite (m1 : positive) (e1 : Z) (m : positive) (e : Z) :
  e1 < e \/ (e1 = e /\ Zpos m1 <= Zpos m) ->
  SFleb (S754_finite false m1 e1) (S754_finite false m e) = true.
Proof.
  intros H. unfold SFleb, SFcompare.
  change (PosDef.Pos.compare_cont Eq m1 m) with (Pos.compare m1 m).
  destruct (Z.compare_spec e1 e) as [E | E | E]; try reflexivity; try lia.
  destruct (Pos.compare_spec m1 m) as [F | F | F]; try reflexivity. lia.
Qed.

(** A positive finite double with exponent above -52, or at -52 with a
    mantissa of at least 2^52, is at least 1. *)
Lemma SFleb_one_finite (m : positive) (e : Z) :
  -52 < e \/ (e = -52 /\ 4503599627370496 <= Zpos m) ->
  SFleb SF_one (S754_finite false m e) = true.
Proof.
  intros H. apply SFleb_pos_finite. lia.
Qed.

Lemma round_nearest_even_ge (m : Z) (l : location) :
  m <= round_nearest_even m l.
Proof.
  destruct l as [ | [ | | ]]; simpl; try lia. destruct (Z.even m); lia.
Qed.

Lemma pow_2_52 : 2 ^ 52 = 4503599627370496.
Proof. reflexivity. Qed.

Lemma binary_round_aux_ge_one (M : positive) :
  4503599627370496 <= Zpos M ->
  SFleb SF_one (binary_round_aux prec emax false (Zpos M) (-52) loc_Exact) = true.
Proof.
  intros HM.
  pose proof (digits2_pos_upper M) as U.
  pose proof (digits2_pos_lower M) as Lw.
  set (d := Zpos (digits2_pos M)) in *.
  assert (Hd : 53 <= d).
  { destruct (Z.le_gt_cases 53 d) as [G | G]; [ exact G | ].
    pose proof (Z.pow_le_mono_r 2 d 52 ltac:(lia) ltac:(lia)) as W.
    rewrite pow_2_52 in W. lia. }
  unfold binary_round_aux, shr_fexp. cbn [Zdigits2]. fold d.
  assert (F1 : fexp prec emax (d + -52) - -52 = d - 53).
  { unfold fexp, emin, prec, emax. lia. }
  rewrite F1.
  pose proof (shr_positive M false false (-52) (d - 53) ltac:(fold d; lia)) as P1.
  pose proof (shr_exponent (Build_shr_record (Zpos M) false false) (-52) (d - 53)) as X1.
  cbn [shr_record_of_loc].
  destruct (shr (Build_shr_record (Zpos M) false false) (-52) (d - 53))
    as [mrs' e'] eqn:E1.
  cbn [fst snd] in P1, X1.
  pose proof (round_nearest_even_ge (shr_m mrs') (loc_of_shr_record mrs')) as R.
  destruct (round_nearest_even (shr_m mrs') (loc_of_shr_record mrs'))
    as [ | q | q] eqn:E2; try lia.
  cbn [Zdigits2].
  set (dq := Zpos (digits2_pos q)).
  assert (F2 : fexp prec emax (dq + e') - e' = dq - 53).
  { unfold fexp, emin, prec, emax. unfold dq. lia. }
  rewrite F2.
  pose proof (shr_positive q false false e' (dq - 53) ltac:(fold dq; lia)) as P2.
  pose proof (shr_exponent (Build_shr_record (Zpos q) false false) e' (dq - 53)) as X2.
  destruct (shr (Build_shr_record (Zpos q) false false) e' (dq - 53))
    as [mrs'' e''] eqn:E3.
  cbn [fst snd] in P2, X2.
  destruct (shr_m mrs'') as [ | m'' | m''] eqn:E4; try lia.
  destruct (e'' <=? emax - prec); [ | reflexivity ].
  apply SFleb_one_finite.
  destruct (Z.eq_dec d 53) as [D53 | D53].
  - (* no shift at all *)
    rewrite D53 in E1. simpl in E1. inversion E1; subst mrs' e'.
    simpl in E2. inversion E2; subst q.
    assert (Dq : dq = 53) by (unfold dq; fold d; exact D53).
    rewrite Dq in E3. simpl in E3. inversion E3; subst mrs'' e''.
    simpl in E4. inversion E4; subst m''. right. split; [ reflexivity | exact HM ].
  - left. assert (-52 < e'); [ | lia ].
    unfold shr in E1. destruct (d - 53) as [ | p | p] eqn:E5; try lia.
    apply (f_equal snd) in E1. cbn [snd] in E1. lia.
Qed.

Lemma SFleb_pos_finite_inv (m1 : positive) (e1 : Z) (y : spec_float) :
  SFleb (S754_finite false m1 e1) y = true ->
  y = S754_infinity false \/
  exists m e, y = S754_finite false m e /\
              (e1 < e \/ (e1 = e /\ Zpos m1 <= Zpos m)).
Proof.
  unfold SFleb, SFcompare.
  destruct y as [s | [] | | [] m e]; try discriminate; auto.
  change (PosDef.Pos.compare_cont Eq m1 m) with (Pos.compare m1 m).
  intros H. right. exists m, e. split; [ reflexivity | ].
  destruct (Z.compare_spec e1 e) as [E | E | E]; try discriminate; try lia.
  destruct (Pos.compare_spec m1 m) as [F | F | F]; try discriminate; lia.
Qed.

Lemma binary_round_ge_one (M : positive) :
  4503599627370496 <= Zpos M ->
  SFleb SF_one (binary_round prec emax false M (-52)) = true.
Proof.
  intros HM. unfold binary_round.
  pose proof (digits2_pos_upper M) as U.
  set (d := Zpos (digits2_pos M)) in *.
  assert (Hd : 53 <= d).
  { destruct (Z.le_gt_cases 53 d) as [G | G]; [ exact G | ].
    pose proof (Z.pow_le_mono_r 2 d 52 ltac:(lia) ltac:(lia)) as W.
    rewrite pow_2_52 in W. lia. }
  assert (F : 0 <= fexp prec emax (d + -52) - -52).
  { unfold fexp, emin, prec, emax. lia. }
  unfold shl_align.
  destruct (fexp prec emax (d + -52) - -52) as [ | p | p] eqn:E; try lia;
    now apply binary_round_aux_ge_one.
Qed.

(** Adding 1.0 to a double that is at least 1.0 gives a double that is
    at least 1.0. *)
Lemma SF64add_one_ge_one (X : spec_float) :
  SFleb SF_one X = true -> SFleb SF_one (SF64add X SF_one) = true.
Proof.
  intros H. apply SFleb_pos_finite_inv in H.
  destruct H as [-> | (m & e & -> & H)]; [ reflexivity | ].
  unfold SF64add, SFadd, SF_one.
  rewrite Z.min_r by lia.
  assert (S1 : shl_align 4503599627370496 (-52) (-52) = (4503599627370496%positive, -52))
    by reflexivity.
  rewrite S1. cbn [fst cond_Zopp].
  destruct (shl_align m e (-52)) as [P ez]. cbn [fst].
  change (Z.pos P + 4503599627370496) with (Z.pos (P + 4503599627370496)).
  cbn [binary_normalize]. apply binary_round_ge_one. lia.
Qed.

Lemma add_one_ge_one (x : float) :
  (1 <=? x)%float = true -> (1 <=? x + 1)%float = true.
Proof.
  rewrite !leb_spec, add_spec. change (Prim2SF 1) with SF_one.
  apply SF64add_one_ge_one.
Qed.
End CountingDoubles.

(* ------------------------------------------------------------------ *)
(** ** K-means: sums, counts and the divisor *)

Lemma vset_out {A : Type} (v : list A) k x : length v <= k -> vset v k x = v.
Proof.
  revert k; induction v as [ | h t IH]; intros [ | k] H; simpl in *;
    try reflexivity; try lia.
  f_equal. apply IH. lia.
Qed.

Lemma assigned_S asg i c :
  assigned asg (S i) c =
  assigned asg i c ++ (if nth i asg 0 =? c then [i] else []).
Proof. unfold assigned. rewrite seq_S, filter_app. reflexivity. Qed.

(** The count of a non-empty cluster is at least 1.0. *)
Lemma count_float_ge_one k : 1 <= k -> (1 <=? count_float k)%float = true.
Proof.
  induction 1 as [ | k Hk IH]; [ reflexivity | ].
  change (count_float (S k)) with (count_float k + 1)%float.
  now apply add_one_ge_one.
Qed.

Section KMeansUpdate.
Variable K : nat.
Variable T : Type.
Variable T0 : T.
Variable tadd : T -> T -> T.
Variable tdiv : T -> float -> T.
Variable dfunc : T -> T -> float.
Variable col : list T.
Variable col_size : nat.

Local Abbreviation sum_and_count := (KMeans.sum_and_count K T0 tadd col col_size).
Local Abbreviation iteration := (KMeans.iteration K T0 tadd tdiv dfunc col col_size).
Local Abbreviation sum_of := (sum_of T0 tadd col).

Lemma sum_and_count_spec (asg : list nat) :
  let r := sum_and_count asg in
  length (fst r) = K /\ length (snd r) = K /\
  forall c, c < K ->
    nth c (snd r) 0%float = count_float (length (assigned asg col_size c)) /\
    nth c (fst r) T0 = sum_of (assigned asg col_size c).
Proof.
  unfold KMeans.sum_and_count.
  loop_inv (fun i (r : list T * list float) =>
              length (fst r) = K /\ length (snd r) = K /\
              forall c, c < K ->
                nth c (snd r) 0%float = count_float (length (assigned asg i c)) /\
                nth c (fst r) T0 = sum_of (assigned asg i c)).
  - lia.
  - simpl. rewrite !repeat_length. repeat split; auto.
    + now rewrite nth_repeat_lt.
    + now rewrite nth_repeat_lt.
  - intros i [nm cnt] Hi (L1 & L2 & N). simpl in L1, L2, N. simpl.
    rewrite !vset_length. split; [ exact L1 | ]. split; [ exact L2 | ].
    intros c Hc. rewrite assigned_S. destruct (N c Hc) as [N1 N2].
    destruct (Nat.eq_dec (nth i asg 0) c) as [E | D].
    + rewrite E, Nat.eqb_refl, !nth_vset_eq by lia.
      rewrite length_app. simpl. rewrite Nat.add_1_r. simpl.
      split; [ now rewrite N1 | ].
      unfold sum_of. rewrite map_app, fold_left_app. simpl.
      fold (sum_of (assigned asg i c)). now rewrite N2.
    + rewrite !nth_vset_neq by exact D.
      apply Nat.eqb_neq in D. rewrite D, app_nil_r. auto.
  - exact G.
Qed.

(** C8.  In the update step of a turn, for every cluster [c < K]:
    [counts[c]] is the double counting the points assigned to [c]; the
    divisor is that count when it is at least 1, which it is as soon as
    one point was assigned, and 1 when no point was assigned; it is 1 or
    greater than 1 in every case, hence never zero;
    and a cluster without points gets the degenerate centroid
    [value_type() / 1], which the turn then either adopts or drops for
    the old centroid: there is no failure and no reseeding. *)
Theorem kmeans_divisor (st : list T * list nat) (c : nat) :
  length (fst st) = K ->
  c < K ->
  let assignments := KMeans.find_assignments K T0 dfunc col col_size (fst st) (snd st) in
  let new_means := fst (sum_and_count assignments) in
  let counts := snd (sum_and_count assignments) in
  let pts := assigned assignments col_size c in
  let count := nth c counts 0%float in
  let value := tdiv (nth c new_means T0) (KMeans.divisor counts c) in
  count = count_float (length pts) /\
  nth c new_means T0 = sum_of pts /\
  ((1 <=? count)%float = true -> KMeans.divisor counts c = count) /\
  (pts <> [] ->
     (1 <=? count)%float = true /\ KMeans.divisor counts c = count) /\
  (pts = [] ->
     count = 0%float /\ KMeans.divisor counts c = 1%float /\
     value = tdiv T0 1%float) /\
  (KMeans.divisor counts c = 1%float \/ (1 <? KMeans.divisor counts c)%float = true) /\
  (0 <? KMeans.divisor counts c)%float = true /\
  nth c (new_centroids K T0 tadd tdiv dfunc col col_size st) T0 = value /\
  (nth c (fst (snd (iteration st))) T0 = value \/
   nth c (fst (snd (iteration st))) T0 = nth c (fst st) T0).
Proof.
  intros L Hc asg new_means counts pts count value.
  destruct (sum_and_count_spec asg) as (L1 & L2 & N).
  destruct (N c Hc) as [N1 N2]. fold counts in N1. fold new_means in N2.
  fold pts in N1, N2. fold count in N1.
  assert (V : nth c (new_centroids K T0 tadd tdiv dfunc col col_size st) T0 = value).
  { unfold new_centroids. fold asg.
    destruct (sum_and_count asg) as [nm cnt] eqn:E.
    rewrite nth_map_seq by exact Hc. reflexivity. }
  assert (D : (1 <=? count)%float = true -> KMeans.divisor counts c = count).
  { intros H. unfold KMeans.divisor. fold count.
    destruct (std_max_one count) as [[E F] | [E _]]; rewrite E; auto.
    symmetry. now apply dle_one_eq. }
  split; [ exact N1 | ]. split; [ exact N2 | ]. split; [ exact D | ].
  split; [ | split; [ | split; [ | split; [ | split ] ] ] ].
  - intros P.
    assert (C1 : (1 <=? count)%float = true).
    { rewrite N1. apply count_float_ge_one.
      destruct pts; [ congruence | simpl; lia ]. }
    split; [ exact C1 | now apply D ].
  - intros P. assert (C0 : count = 0%float) by (rewrite N1, P; reflexivity).
    assert (D1 : KMeans.divisor counts c = 1%float)
      by (unfold KMeans.divisor; fold count; rewrite C0; reflexivity).
    repeat split; auto. unfold value. rewrite D1, N2, P. reflexivity.
  - unfold KMeans.divisor.
    destruct (std_max_one (nth c counts 0%float)) as [[E _] | [E F]];
      rewrite E; auto.
  - apply std_max_one_pos.
  - exact V.
  - rewrite iteration_spec by exact L. simpl. rewrite nth_map_seq by exact Hc.
    rewrite V. destruct (moves _ _ _ _ _ _ _ _ _); auto.
Qed.
End KMeansUpdate.

Lemma kmeans_divisor_witness :
  let st := ([5; 0]%float, repeat 0 6) in
  let col := [0; 0; 0; 10; 10; 10]%float in
  length (fst st) = 2 /\
  KMeans.divisor
    (snd (KMeans.sum_and_count 2 0%float PrimFloat.add col 6
            (KMeans.find_assignments 2 0%float sq_diff col 6 (fst st) (snd st))))
    1 = 3%float.
Proof.
  intros st col. split; [ reflexivity | ].
  destruct (kmeans_divisor 2 float 0%float PrimFloat.add PrimFloat.div sq_diff
              col 6 st 1) as (A & _ & B & _).
  - reflexivity.
  - lia.
  - rewrite B; [ | vm_compute; reflexivity ].
    rewrite A. vm_compute. reflexivity.
Defined.

(* ------------------------------------------------------------------ *)
(** ** Affinity propagation: rounds, exemplars and clusters *)

Lemma nth_repeat_same {A : Type} (x : A) n k : nth k (repeat x n) x = x.
Proof.
  revert k; induction n as [ | n IH]; intros [ | k]; simpl; auto.
Qed.

Lemma NoDup_map_Elem (l : list nat) : NoDup l -> NoDup (map Elem l).
Proof.
  induction 1 as [ | x l Hx Hl IH]; simpl; constructor; [ | exact IH ].
  intros H. apply in_map_iff in H. destruct H as (y & E & Hy).
  inversion E; subst. contradiction.
Qed.

Section AffinityPropFacts.
Variable T : Type.
Variable I : Type.
Variable T0 : T.
Implicit Types (v : AffinityProp.AffinityPropVisitor T) (col : list T)
  (idx : list I).
Local Abbreviation elected := (elected T0).

(** The message-passing loop has no exit but its bound. *)
Lemma get_avail_and_respon_trace_spec d simil csize iter_num avail respon :
  AffinityProp.get_avail_and_respon_trace d simil csize iter_num avail respon =
  (Nat.iter iter_num (AffinityProp.round d simil csize)
     (resize avail (csize * csize) 0%float, resize respon (csize * csize) 0%float),
   iter_num).
Proof.
  unfold AffinityProp.get_avail_and_respon_trace.
  loop_inv (fun i (r : list float * list float * nat) =>
              r = (Nat.iter i (AffinityProp.round d simil csize)
                     (resize avail (csize * csize) 0%float,
                      resize respon (csize * csize) 0%float), i)).
  - lia.
  - reflexivity.
  - intros i [st turns] Hi E. inversion E; subst. reflexivity.
  - exact G.
Qed.

(** [operator()] appends what it elects to the exemplars that are
    already in [centers_]: nothing clears the view.  Each address is
    stored with the element of [col] it points at. *)
Lemma compute_views v idx col :
  AffinityProp.centers_ (AffinityProp.compute T0 v idx col) =
    AffinityProp.centers_ v ++ map Elem (elected v idx col) /\
  AffinityProp.pointees_ (AffinityProp.compute T0 v idx col) =
    AffinityProp.pointees_ v ++
    map (fun i => nth i col T0) (elected v idx col).
Proof.
  unfold AffinityProp.compute, elected.
  destruct (AffinityProp.messages T0 v idx col) as [avail respon]. simpl.
  set (csize := Nat.min (length idx) (length col)).
  loop_inv (fun i (views : list ptr * list T) =>
              views =
              (AffinityProp.centers_ v ++
                 map Elem (filter (AffinityProp.is_exemplar csize avail respon)
                             (seq 0 i)),
               AffinityProp.pointees_ v ++
                 map (fun i => nth i col T0)
                   (filter (AffinityProp.is_exemplar csize avail respon)
                      (seq 0 i)))).
  - lia.
  - simpl. now rewrite !app_nil_r.
  - intros i views Hi ->.
    rewrite seq_S, filter_app, !map_app, !app_assoc. simpl.
    destruct (AffinityProp.is_exemplar csize avail respon i); simpl;
      [ reflexivity | now rewrite !app_nil_r ].
  - rewrite G. split; reflexivity.
Qed.

Lemma compute_centers v idx col :
  AffinityProp.centers_ (AffinityProp.compute T0 v idx col) =
  AffinityProp.centers_ v ++ map Elem (elected v idx col).
Proof. apply compute_views. Qed.

Lemma compute_pointees v idx col :
  AffinityProp.pointees_ (AffinityProp.compute T0 v idx col) =
  AffinityProp.pointees_ v ++ map (fun i => nth i col T0) (elected v idx col).
Proof. apply compute_views. Qed.

Lemma messages_cleared v idx col :
  AffinityProp.messages T0 (cleared v) idx col = AffinityProp.messages T0 v idx col.
Proof. reflexivity. Qed.

Lemma messages_compute v idx0 col0 idx col :
  AffinityProp.messages T0 (AffinityProp.compute T0 v idx0 col0) idx col =
  AffinityProp.messages T0 v idx col.
Proof.
  unfold AffinityProp.compute.
  destruct (AffinityProp.messages T0 v idx0 col0).
  destruct (for_loop _ _ _ _). reflexivity.
Qed.

(** Without any round the matrices are zero and nothing is elected. *)
Lemma elected_no_round v idx col :
  AffinityProp.iter_num_ v = 0 -> elected v idx col = [].
Proof.
  intros Z. unfold elected, AffinityProp.messages,
    AffinityProp.get_avail_and_respon.
  rewrite get_avail_and_respon_trace_spec, Z. simpl. rewrite !resize_nil.
  set (csize := Nat.min (length idx) (length col)).
  assert (F : forall l, filter (AffinityProp.is_exemplar csize
                (repeat 0%float (csize * csize))
                (repeat 0%float (csize * csize))) l = []).
  { induction l as [ | i l IH]; simpl; [ reflexivity | ].
    unfold AffinityProp.is_exemplar at 1. rewrite !nth_repeat_same.
    exact IH. }
  apply F.
Qed.

(** What [operator()] leaves in the exemplar view, on any instance:
    what was there, and the positions that pass the test. *)
Lemma exemplar_selection_appends v idx col (i : nat) :
  let csize := Nat.min (length idx) (length col) in
  let avail := fst (AffinityProp.messages T0 v idx col) in
  let respon := snd (AffinityProp.messages T0 v idx col) in
  In (Elem i) (AffinityProp.get_result (AffinityProp.compute T0 v idx col)) <->
  In (Elem i) (AffinityProp.get_result v) \/
  (i < csize /\
   Double.gtb (nth (i * csize + i) respon 0 + nth (i * csize + i) avail 0)%float
              0%float = true).
Proof.
  intros csize avail respon. unfold AffinityProp.get_result.
  rewrite compute_centers, in_app_iff, in_map_iff. unfold elected.
  fold csize avail respon. split.
  - intros [H | (x & X & Hx)]; [ now left | right ]. inversion X; subst.
    apply filter_In in Hx. destruct Hx as [Hx Hg]. apply in_seq in Hx.
    split; [ lia | exact Hg ].
  - intros [H | [Hi Hg]]; [ now left | right ]. exists i.
    split; [ reflexivity | ].
    apply filter_In. split; [ apply in_seq; lia | exact Hg ].
Qed.

(** On an instance whose exemplar view is empty, the exemplars are the
    positions that pass the test: distinct column positions, between none
    and all of them. *)
Lemma exemplar_selection_fresh v idx col :
  AffinityProp.get_result v = [] ->
  let csize := Nat.min (length idx) (length col) in
  let exemplars := AffinityProp.get_result (AffinityProp.compute T0 v idx col) in
  exemplars = map Elem (elected v idx col) /\
  NoDup exemplars /\
  length exemplars <= csize /\
  (AffinityProp.iter_num_ v = 0 -> exemplars = []).
Proof.
  intros C csize exemplars. unfold AffinityProp.get_result in C.
  assert (E : exemplars = map Elem (elected v idx col)).
  { unfold exemplars, AffinityProp.get_result. now rewrite compute_centers, C. }
  split; [ exact E | ]. split; [ | split ].
  - rewrite E. apply NoDup_map_Elem, NoDup_filter, seq_NoDup.
  - rewrite E, length_map. unfold elected. fold csize.
    etransitivity; [ apply filter_length_le | ]. now rewrite length_seq.
  - intros Z. rewrite E, elected_no_round by exact Z. reflexivity.
Qed.

Lemma rounds_run_all v idx col :
  AffinityProp.rounds_run T0 v idx col = AffinityProp.iter_num_ v.
Proof.
  unfold AffinityProp.rounds_run. now rewrite get_avail_and_respon_trace_spec.
Qed.
End AffinityPropFacts.

Example no_exemplar_after_one_round :
  AffinityProp.get_result
    (AffinityProp.compute 0%float (AffinityProp.make 1 sq_diff 0.5%float)
       [0; 1] [0; 1]%float) = [].
Proof. vm_compute. reflexivity. Qed.

Example every_point_exemplar :
  AffinityProp.get_result
    (AffinityProp.compute 0%float (AffinityProp.make 1 sq_diff 0.5%float)
       [0] [0]%float) = [Elem 0].
Proof. vm_compute. reflexivity. Qed.

(** C6 on the code.  After all the rounds, [operator()] appends to the
    exemplar view the positions [i] with [r(i,i) + a(i,i) > 0] on the
    final matrices, and removes nothing from the view.  On an instance
    whose view is empty the exemplars are exactly these positions,
    distinct and between none and all of them.  On an instance that has
    been run before, the exemplars of the earlier call stay in the set
    whatever the test says: [run_before] has elected position 1 of
    [three_points]; run again on [two_points], where [r(1,1) + a(1,1)]
    is 0 and a new instance elects nothing, it still reports position
    1. *)
Theorem exemplar_selection_keeps_earlier_exemplars :
  (forall (T I : Type) (T0 : T) (v : AffinityProp.AffinityPropVisitor T)
          (idx : list I) (col : list T) (i : nat),
     let csize := Nat.min (length idx) (length col) in
     let avail := fst (AffinityProp.messages T0 v idx col) in
     let respon := snd (AffinityProp.messages T0 v idx col) in
     let exemplars :=
       AffinityProp.get_result (AffinityProp.compute T0 v idx col) in
     let passes :=
       i < csize /\
       Double.gtb
         (nth (i * csize + i) respon 0 + nth (i * csize + i) avail 0)%float
         0%float = true in
     AffinityProp.rounds_run T0 v idx col = AffinityProp.iter_num_ v /\
     (In (Elem i) exemplars <->
      In (Elem i) (AffinityProp.get_result v) \/ passes) /\
     (AffinityProp.get_result v = [] ->
      (In (Elem i) exemplars <-> passes) /\
      NoDup exemplars /\ length exemplars <= csize)) /\
  (let m := AffinityProp.messages 0%float run_before [0; 1] two_points in
   AffinityProp.get_result run_before = [Elem 1] /\
   (nth (1 * 2 + 1) (snd m) 0 + nth (1 * 2 + 1) (fst m) 0)%float = 0%float /\
   Double.gtb (nth (1 * 2 + 1) (snd m) 0 + nth (1 * 2 + 1) (fst m) 0)%float
              0%float = false /\
   AffinityProp.get_result
     (AffinityProp.compute 0%float run_before [0; 1] two_points) = [Elem 1] /\
   AffinityProp.get_result
     (AffinityProp.compute 0%float one_round [0; 1] two_points) = []).
Proof.
  split.
  - intros T I T0 v idx col i csize avail respon exemplars passes.
    pose proof (exemplar_selection_appends T I T0 v idx col i) as A.
    cbv zeta in A. fold csize avail respon exemplars passes in A.
    split; [ apply rounds_run_all | ]. split; [ exact A | ].
    intros C.
    destruct (exemplar_selection_fresh T I T0 v idx col C) as (_ & N & L & _).
    split; [ | split; [ exact N | exact L ] ].
    rewrite A, C. simpl. tauto.
  - vm_compute. repeat split.
Qed.

Section AffinityPropClusters.
Variable T : Type.
Variable I : Type.
Variable T0 : T.
Implicit Types (v : AffinityProp.AffinityPropVisitor T) (col : list T)
  (idx : list I).
Local Abbreviation ap_dist := (ap_dist T0).
Local Abbreviation elected := (elected T0).

Lemma ap_get_clusters_empty v idx col :
  AffinityProp.centers_ v = [] ->
  AffinityProp.get_clusters T0 v idx col = Some [].
Proof. intros E. unfold AffinityProp.get_clusters. now rewrite E. Qed.

Lemma ap_get_clusters_unassigned v idx col j :
  AffinityProp.centers_ v <> [] ->
  j < Nat.min (length idx) (length col) ->
  AffinityProp.min_idx T0 v col j = None ->
  AffinityProp.get_clusters T0 v idx col = None.
Proof.
  intros E Hj Hm. unfold AffinityProp.get_clusters.
  destruct (AffinityProp.centers_ v) as [ | c cs] eqn:C; [ congruence | ].
  simpl Nat.ltb. cbv iota. rewrite <- C.
  eapply assign_points_none; eauto.
Qed.

Lemma ap_get_clusters_partition v idx col :
  let n := Nat.min (length idx) (length col) in
  let k := length (AffinityProp.centers_ v) in
  AffinityProp.centers_ v <> [] ->
  below_max_all (ap_dist v col) n k = true ->
  exists clusters,
    AffinityProp.get_clusters T0 v idx col = Some clusters /\
    length clusters = k /\
    (forall m, m < k ->
       exists pts, nth m clusters [] = map Elem pts /\
                   NoDup pts /\ forall j, In j pts -> j < n) /\
    (forall j, j < n ->
       exists m, m < k /\ In (Elem j) (nth m clusters []) /\
         forall m', m' < k -> In (Elem j) (nth m' clusters []) -> m' = m) /\
    (forall j m, j < n -> m < k -> In (Elem j) (nth m clusters []) ->
       (forall c, c < k -> (ap_dist v col j c <? ap_dist v col j m)%float = false) /\
       (forall c, c < m -> (ap_dist v col j m <? ap_dist v col j c)%float = true)).
Proof.
  intros n k Hne Hd. pose proof (below_max_all_spec _ _ _ Hd) as Hd'.
  assert (Hk : 0 < k).
  { unfold k. destruct (AffinityProp.centers_ v); [ congruence | simpl; lia ]. }
  set (g := fun j => match AffinityProp.min_idx T0 v col j with
                     | Some m => m | None => 0 end).
  assert (Hg : forall j, j < n ->
             AffinityProp.min_idx T0 v col j = Some (g j) /\ g j < k /\
             (forall c, c < k ->
                (ap_dist v col j c <? ap_dist v col j (g j))%float = false) /\
             (forall c, c < g j ->
                (ap_dist v col j (g j) <? ap_dist v col j c)%float = true)).
  { intros j Hj.
    destruct (nearest_some (ap_dist v col j) k) as (m & E & Hm & N1 & N2);
      [ lia | intros c Hc; now apply Hd' | ].
    unfold g, AffinityProp.min_idx. fold (ap_dist v col j). fold k.
    rewrite E. auto. }
  unfold AffinityProp.get_clusters. fold n k.
  replace (0 <? k) with true by (symmetry; apply Nat.ltb_lt; exact Hk).
  rewrite resize_nil.
  destruct (assign_points_some (AffinityProp.min_idx T0 v col) g n
              (repeat [] k)) as (cl & E & L & N).
  { intros j Hj. destruct (Hg j Hj) as (-> & G & _).
    rewrite repeat_length. auto. }
  rewrite repeat_length in L, N.
  assert (N' : forall m, m < k ->
             nth m cl [] = map Elem (filter (fun j => g j =? m) (seq 0 n))).
  { intros m Hm. rewrite N by exact Hm. now rewrite nth_repeat_same. }
  assert (M : forall j m, m < k ->
             (In (Elem j) (nth m cl []) <-> j < n /\ g j = m)).
  { intros j m Hm. rewrite N' by exact Hm. apply in_elem_filter. }
  exists cl. split; [ exact E | ]. split; [ exact L | ].
  split; [ | split ].
  - intros m Hm. exists (filter (fun j => g j =? m) (seq 0 n)).
    split; [ now apply N' | ]. split; [ apply nodup_filter_seq | ].
    intros j Hj. apply filter_In in Hj. destruct Hj as [Hj _].
    apply in_seq in Hj. lia.
  - intros j Hj. exists (g j). destruct (Hg j Hj) as (_ & G & _).
    split; [ exact G | ]. split; [ apply M; auto | ].
    intros m' Hm' Hin. apply M in Hin; [ | exact Hm' ]. symmetry. tauto.
  - intros j m Hj Hm Hin. apply M in Hin; [ | exact Hm ].
    destruct Hin as [_ <-]. destruct (Hg j Hj) as (_ & _ & G1 & G2).
    split; [ exact G1 | exact G2 ].
Qed.

(** After [operator()] on an instance with an empty view, entry [c] of
    the view is the address of the [c]-th elected position, and what
    [get_clusters] reads through it is the element of the column
    [operator()] was called on. *)
Lemma compute_deref v idx0 (col0 : list T) (c : nat) :
  let ex := elected v idx0 col0 in
  let v' := AffinityProp.compute T0 (cleared v) idx0 col0 in
  c < length ex ->
  nth c (AffinityProp.get_result v') (Mean 0) = Elem (nth c ex 0) /\
  AffinityProp.deref T0 v' c = nth (nth c ex 0) col0 T0.
Proof.
  intros ex v' Hc. unfold AffinityProp.get_result, AffinityProp.deref, v'.
  rewrite (compute_centers T I T0), (compute_pointees T I T0). simpl.
  assert (E : elected (cleared v) idx0 col0 = ex) by reflexivity.
  rewrite E. split.
  - rewrite nth_indep with (d' := Elem 0) by now rewrite length_map.
    apply map_nth.
  - rewrite nth_indep with (d' := nth 0 col0 T0) by now rewrite length_map.
    apply (map_nth (fun i => nth i col0 T0)).
Qed.

End AffinityPropClusters.



(* ------------------------------------------------------------------ *)
(** ** Both engines *)

Section BothEngines.
Variable K : nat.
Variable T : Type.
Variable I : Type.
Variable T0 : T.
Variable tadd : T -> T -> T.
Variable tdiv : T -> float -> T.
Implicit Types (kv : KMeans.KMeansVisitor T)
  (av : AffinityProp.AffinityPropVisitor T) (col : list T) (idx : list I).

Lemma km_get_clusters_unassigned kv idx col j :
  j < Nat.min (length idx) (length col) ->
  KMeans.min_idx K T0 kv col j = None ->
  KMeans.get_clusters K T0 kv idx col = None.
Proof.
  intros Hj Hm. unfold KMeans.get_clusters. eapply assign_points_none; eauto.
Qed.

(** C9.  In both [get_clusters] the index of a point is assigned only
    when one of its distances is strictly below the largest finite
    double.  When that holds for every distance, every point is appended
    to exactly one group, once; for a point with no such distance the
    index is used without ever having been assigned, and the call is
    undefined. *)
Theorem min_idx_assigned_iff_below_max kv av idx col (j : nat) :
  let n := Nat.min (length idx) (length col) in
  let k := length (AffinityProp.centers_ av) in
  (KMeans.min_idx K T0 kv col j = None <->
   forall c, c < K -> (km_dist T0 kv col j c <? Double.max)%float = false) /\
  (1 <= K -> below_max_all (km_dist T0 kv col) n K = true ->
   exists clusters,
     KMeans.get_clusters K T0 kv idx col = Some clusters /\
     (forall m, m < K ->
        exists pts, nth m clusters [] = Mean m :: map Elem pts /\ NoDup pts) /\
     forall p, p < n ->
       exists m, m < K /\ In (Elem p) (nth m clusters []) /\
         forall m', m' < K -> In (Elem p) (nth m' clusters []) -> m' = m) /\
  (j < n -> KMeans.min_idx K T0 kv col j = None ->
   KMeans.get_clusters K T0 kv idx col = None) /\
  (AffinityProp.min_idx T0 av col j = None <->
   forall c, c < k -> (ap_dist T0 av col j c <? Double.max)%float = false) /\
  (1 <= k -> below_max_all (ap_dist T0 av col) n k = true ->
   exists clusters,
     AffinityProp.get_clusters T0 av idx col = Some clusters /\
     (forall m, m < k ->
        exists pts, nth m clusters [] = map Elem pts /\ NoDup pts) /\
     forall p, p < n ->
       exists m, m < k /\ In (Elem p) (nth m clusters []) /\
         forall m', m' < k -> In (Elem p) (nth m' clusters []) -> m' = m) /\
  (1 <= k -> j < n -> AffinityProp.min_idx T0 av col j = None ->
   AffinityProp.get_clusters T0 av idx col = None).
Proof.
  intros n k.
  split; [ | split; [ | split; [ | split; [ | split ] ] ] ].
  - apply (nearest_none_iff (km_dist T0 kv col j) K).
  - intros HK Hd.
    destruct (get_clusters_partition K T I T0 kv idx col HK Hd)
      as (cl & E & _ & P1 & P2 & _).
    exists cl. split; [ exact E | ]. split; [ | exact P2 ].
    intros m Hm. destruct (P1 m Hm) as (pts & Q1 & Q2 & _). now exists pts.
  - apply km_get_clusters_unassigned.
  - apply (nearest_none_iff (ap_dist T0 av col j) k).
  - intros Hk Hd.
    assert (Hne : AffinityProp.centers_ av <> []).
    { intros E. unfold k in Hk. rewrite E in Hk. simpl in Hk. lia. }
    destruct (ap_get_clusters_partition T I T0 av idx col Hne Hd)
      as (cl & E & _ & P1 & P2 & _).
    exists cl. split; [ exact E | ]. split; [ | exact P2 ].
    intros m Hm. destruct (P1 m Hm) as (pts & Q1 & Q2 & _). now exists pts.
  - intros Hk. apply ap_get_clusters_unassigned.
    intros E. unfold k in Hk. rewrite E in Hk. simpl in Hk. lia.
Qed.

(** C10.  The message-passing loop of the exemplar engine runs exactly
    [iter_num_] rounds, whatever the input.  The refinement loop of the
    centroid engine runs at most [iter_num_] turns; when it runs fewer,
    the last turn it ran had set [done], no earlier turn had, and when no
    turn sets [done] it runs them all.  Both operations are total. *)
Theorem loops_run_to_bound kv av (rd : nat -> nat) idx col :
  let n := Nat.min (length idx) (length col) in
  let simil := AffinityProp.get_similarity_ T0 (AffinityProp.dfunc_ av) col n in
  let zeros := repeat 0%float (n * n) in
  let st0 := (KMeans.pick_centroids K T0 col rd (KMeans.k_means_ kv), repeat 0 n) in
  let turn := KMeans.iteration K T0 tadd tdiv (KMeans.dfunc_ kv) col n in
  let after := state_after K T0 tadd tdiv (KMeans.dfunc_ kv) col n in
  let r := KMeans.iterations_run K T0 tadd tdiv kv rd idx col in
  AffinityProp.rounds_run T0 av idx col = AffinityProp.iter_num_ av /\
  AffinityProp.messages T0 av idx col =
    Nat.iter (AffinityProp.iter_num_ av)
      (AffinityProp.round (AffinityProp.dfactor_ av) simil n) (zeros, zeros) /\
  r <= KMeans.iter_num_ kv /\
  KMeans.k_means_ (KMeans.compute K T0 tadd tdiv kv rd idx col) = fst (after r st0) /\
  (forall t, t + 1 < r -> fst (turn (after t st0)) = false) /\
  (r < KMeans.iter_num_ kv -> 0 < r /\ fst (turn (after (r - 1) st0)) = true) /\
  ((forall t, t < KMeans.iter_num_ kv -> fst (turn (after t st0)) = false) ->
   r = KMeans.iter_num_ kv) /\
  (exists av', AffinityProp.compute T0 av idx col = av') /\
  (exists kv', KMeans.compute K T0 tadd tdiv kv rd idx col = kv').
Proof.
  intros n simil zeros st0 turn after r.
  split; [ | split ].
  - unfold AffinityProp.rounds_run. now rewrite get_avail_and_respon_trace_spec.
  - unfold AffinityProp.messages, AffinityProp.get_avail_and_respon.
    rewrite get_avail_and_respon_trace_spec. simpl. now rewrite !resize_nil.
  - pose proof (iterate_spec K T T0 tadd tdiv (KMeans.dfunc_ kv) col n
                  (KMeans.iter_num_ kv) st0) as H.
    assert (R : r = snd (KMeans.iterate K T0 tadd tdiv (KMeans.dfunc_ kv) col n
                           (KMeans.iter_num_ kv) st0)).
    { unfold r, KMeans.iterations_run, KMeans.calc_k_means_trace. fold n st0.
      destruct (KMeans.iterate _ _ _ _ _ _ _ _ _) as [[km asg] t]. reflexivity. }
    assert (C : KMeans.k_means_ (KMeans.compute K T0 tadd tdiv kv rd idx col) =
                fst (fst (KMeans.iterate K T0 tadd tdiv (KMeans.dfunc_ kv) col n
                            (KMeans.iter_num_ kv) st0))).
    { unfold KMeans.compute, KMeans.calc_k_means_, KMeans.calc_k_means_trace.
      fold n st0.
      destruct (KMeans.iterate _ _ _ _ _ _ _ _ _) as [[km asg] t]. reflexivity. }
    cbv zeta in H. rewrite <- R in H. destruct H as (H1 & H2 & H3 & H4 & H5).
    split; [ exact H1 | ]. split; [ now rewrite C, H2 | ].
    split; [ exact H3 | ]. split; [ exact H4 | ]. split; [ exact H5 | ].
    split; eexists; reflexivity.
Qed.

(** A second [operator()] of the centroid engine does not see the
    centroids of the first: the seeding overwrites all K of them. *)
Lemma kmeans_recompute kv (rd0 rd : nat -> nat) idx0 (col0 : list T) idx col :
  length (KMeans.k_means_ kv) = K ->
  KMeans.compute K T0 tadd tdiv
    (KMeans.compute K T0 tadd tdiv kv rd0 idx0 col0) rd idx col =
  KMeans.compute K T0 tadd tdiv kv rd idx col.
Proof.
  intros L.
  pose proof (compute_length K T I T0 tadd tdiv kv rd0 idx0 col0 L) as L'.
  unfold KMeans.compute at 1 3. unfold KMeans.calc_k_means_, KMeans.calc_k_means_trace.
  rewrite !pick_centroids_spec by assumption.
  assert (E1 : KMeans.dfunc_ (KMeans.compute K T0 tadd tdiv kv rd0 idx0 col0) =
               KMeans.dfunc_ kv).
  { unfold KMeans.compute, KMeans.calc_k_means_, KMeans.calc_k_means_trace.
    destruct (KMeans.iterate _ _ _ _ _ _ _ _ _) as [[km asg] t]. reflexivity. }
  assert (E2 : KMeans.iter_num_ (KMeans.compute K T0 tadd tdiv kv rd0 idx0 col0) =
               KMeans.iter_num_ kv).
  { unfold KMeans.compute, KMeans.calc_k_means_, KMeans.calc_k_means_trace.
    destruct (KMeans.iterate _ _ _ _ _ _ _ _ _) as [[km asg] t]. reflexivity. }
  rewrite E1, E2. reflexivity.
Qed.

(** A second [operator()] of the exemplar engine keeps the exemplars of
    the first and appends its own. *)
Lemma ap_recompute av idx0 (col0 : list T) idx col :
  AffinityProp.get_result
    (AffinityProp.compute T0 (AffinityProp.compute T0 av idx0 col0) idx col) =
  AffinityProp.get_result (AffinityProp.compute T0 av idx0 col0) ++
  AffinityProp.get_result (AffinityProp.compute T0 (cleared av) idx col).
Proof.
  unfold AffinityProp.get_result.
  rewrite (compute_centers T I T0 (AffinityProp.compute T0 av idx0 col0)).
  rewrite (compute_centers T I T0 (cleared av)). simpl. f_equal.
  unfold elected. now rewrite messages_compute, messages_cleared.
Qed.
End BothEngines.

Lemma min_idx_assigned_iff_below_max_witness :
  (below_max_all (km_dist 0%float six_points_visitor six_points) 6 2 = true /\
   exists clusters,
     KMeans.get_clusters 2 0%float six_points_visitor (seq 0 6) six_points
     = Some clusters) /\
  (KMeans.min_idx 2 0%float (KMeans.make 2 0%float 10 far_apart) six_points 0
   = None /\
   KMeans.get_clusters 2 0%float (KMeans.make 2 0%float 10 far_apart)
     (seq 0 6) six_points = None) /\
  (below_max_all (ap_dist 0%float two_groups_visitor two_groups) 6
     (length (AffinityProp.centers_ two_groups_visitor)) = true /\
   exists clusters,
     AffinityProp.get_clusters 0%float two_groups_visitor (seq 0 6) two_groups
     = Some clusters).
Proof.
  assert (B1 : below_max_all (km_dist 0%float six_points_visitor six_points) 6 2
               = true) by (vm_compute; reflexivity).
  assert (B2 : below_max_all (ap_dist 0%float two_groups_visitor two_groups) 6
                 (length (AffinityProp.centers_ two_groups_visitor)) = true)
    by (vm_compute; reflexivity).
  assert (U : KMeans.min_idx 2 0%float (KMeans.make 2 0%float 10 far_apart)
                six_points 0 = None) by (vm_compute; reflexivity).
  split; [ split; [ exact B1 | ] | split; [ split; [ exact U | ] | split; [ exact B2 | ] ] ].
  - destruct (min_idx_assigned_iff_below_max 2 float nat 0%float
                six_points_visitor two_groups_visitor (seq 0 6) six_points 0)
      as (_ & P & _).
    destruct P as (cl & E & _); [ lia | exact B1 | ]. now exists cl.
  - destruct (min_idx_assigned_iff_below_max 2 float nat 0%float
                (KMeans.make 2 0%float 10 far_apart) two_groups_visitor
                (seq 0 6) six_points 0) as (_ & _ & P & _).
    apply P; [ simpl; lia | exact U ].
  - destruct (min_idx_assigned_iff_below_max 2 float nat 0%float
                six_points_visitor two_groups_visitor (seq 0 6) two_groups 0)
      as (_ & _ & _ & _ & P & _).
    destruct P as (cl & E & _); [ vm_compute; lia | exact B2 | ]. now exists cl.
Defined.

(** C1 on the exemplar engine.  [operator()] never clears [centers_]: a
    second call returns the exemplars of the first followed by those a
    fresh instance would elect.  On [three_points] one call elects
    position 1 and a second call on the same column returns it twice. *)
Theorem ap_recompute_accumulates :
  (forall (T I : Type) (T0 : T) (av : AffinityProp.AffinityPropVisitor T)
          (idx0 : list I) (col0 : list T) (idx : list I) (col : list T),
     AffinityProp.get_result
       (AffinityProp.compute T0 (AffinityProp.compute T0 av idx0 col0) idx col) =
     AffinityProp.get_result (AffinityProp.compute T0 av idx0 col0) ++
     AffinityProp.get_result (AffinityProp.compute T0 (cleared av) idx col)) /\
  AffinityProp.get_result
    (AffinityProp.compute 0%float one_round (seq 0 3) three_points) = [Elem 1] /\
  AffinityProp.get_result
    (AffinityProp.compute 0%float
       (AffinityProp.compute 0%float one_round (seq 0 3) three_points)
       (seq 0 3) three_points) = [Elem 1; Elem 1] /\
  AffinityProp.get_clusters 0%float
    (AffinityProp.compute 0%float
       (AffinityProp.compute 0%float one_round (seq 0 3) three_points)
       (seq 0 3) three_points) (seq 0 3) three_points
  = Some [[Elem 0; Elem 1; Elem 2]; []].
Proof.
  split; [ | split; [ | split ] ].
  - intros. apply ap_recompute.
  - vm_compute. reflexivity.
  - vm_compute. reflexivity.
  - vm_compute. reflexivity.
Qed.

(* ------------------------------------------------------------------ *)
(** ** Affinity propagation: the packed similarity matrix *)

Lemma tri_double i : i * (i + 1) = 2 * tri i.
Proof. induction i as [ | i IH]; simpl; [ reflexivity | ]. nia. Qed.

Lemma shiftr_tri i : Nat.shiftr (i * (i + 1)) 1 = tri i.
Proof.
  rewrite tri_double. change (Nat.shiftr (2 * tri i) 1) with (Nat.div2 (2 * tri i)).
  rewrite Nat.div2_div, Nat.mul_comm. apply Nat.div_mul. lia.
Qed.

Lemma row_start_tri n i : i <= n -> row_start n i + tri i = i * n + i.
Proof.
  induction i as [ | i IH]; intros H; simpl; [ reflexivity | ].
  specialize (IH ltac:(lia)). nia.
Qed.

Lemma tri_le i n : i <= n -> tri i <= i * n.
Proof. intros H. pose proof (tri_double i). nia. Qed.

Lemma packed_row n i j :
  i <= n -> i <= j -> AffinityProp.packed n i j = row_start n i + (j - i).
Proof.
  intros Hi Hj. unfold AffinityProp.packed. rewrite shiftr_tri.
  pose proof (row_start_tri n i Hi). pose proof (tri_le i n Hi). lia.
Qed.

Lemma row_start_mono n i i' : i <= i' -> row_start n i <= row_start n i'.
Proof. induction 1; simpl; lia. Qed.

Lemma row_start_full n : row_start n n = (n * (n + 1)) / 2.
Proof.
  pose proof (row_start_tri n n (le_n n)) as H.
  rewrite (tri_double n), Nat.mul_comm, Nat.div_mul by lia.
  pose proof (tri_double n). nia.
Qed.

(** Every offset the code computes for [i <= j < n] is inside the packed
    vector, and distinct pairs have distinct offsets. *)
Lemma packed_lt n i j :
  i <= j -> j < n -> AffinityProp.packed n i j < (n * (n + 1)) / 2.
Proof.
  intros Hi Hj. rewrite packed_row by lia. rewrite <- row_start_full.
  pose proof (row_start_mono n (S i) n ltac:(lia)) as M. simpl in M. lia.
Qed.

Lemma packed_inj n i j i' j' :
  i <= j -> j < n -> i' <= j' -> j' < n ->
  AffinityProp.packed n i j = AffinityProp.packed n i' j' -> i = i' /\ j = j'.
Proof.
  intros Hi Hj Hi' Hj'. rewrite !packed_row by lia. intros E.
  destruct (Nat.lt_trichotomy i i') as [L | [-> | L]].
  - pose proof (row_start_mono n (S i) i' ltac:(lia)) as M. simpl in M. lia.
  - split; [ reflexivity | lia ].
  - pose proof (row_start_mono n (S i') i ltac:(lia)) as M. simpl in M. lia.
Qed.

(** Every offset the message passing computes, for any [i, j < n], is
    inside the packed vector. *)
Lemma packed_in_range n i j :
  i < n -> j < n -> AffinityProp.packed n i j < (n * (n + 1)) / 2.
Proof.
  intros Hi Hj. destruct (Nat.le_gt_cases i j) as [L | G].
  - now apply packed_lt.
  - apply Nat.le_lt_trans with (m := AffinityProp.packed n i i).
    + unfold AffinityProp.packed. lia.
    + apply packed_lt; lia.
Qed.

(** Reading below the diagonal with the same formula lands in an earlier
    row: for [j < i] the offset of [(i, j)] is the one the formula gives
    for [(i - 1, n - i + j)]. *)
Lemma packed_below_diagonal n i j :
  j < i -> i < n ->
  AffinityProp.packed n i j = AffinityProp.packed n (i - 1) (n - i + j).
Proof.
  intros Hj Hi. unfold AffinityProp.packed. rewrite !shiftr_tri.
  destruct i as [ | i]; [ lia | ].
  replace (S i - 1) with i by lia. simpl tri.
  pose proof (tri_le i n ltac:(lia)). pose proof (tri_le (S i) n ltac:(lia)).
  simpl tri in *. nia.
Qed.

Section SimilarityFacts.
Variable T : Type.
Variable T0 : T.
Variable dfunc : T -> T -> float.
Variable col : list T.
Variable n : nat.
Local Abbreviation sim := (sim T0 dfunc col).
Local Abbreviation pairs_done := (pairs_done T0 dfunc col n).

Lemma pairs_done_ext (S S' : nat -> nat -> Prop) st :
  (forall a b, S a b <-> S' a b) -> pairs_done S st -> pairs_done S' st.
Proof.
  intros E. destruct st as [simil mv]. intros (L & A & B & C).
  split; [ exact L | ]. split; [ | split ].
  - intros a b H. apply A, E, H.
  - intros a b H. apply B, E, H.
  - destruct C as [[C1 C2] | (a & b & C1 & C2)].
    + left. split; [ exact C1 | ]. intros a b H. apply C2, E, H.
    + right. exists a, b. split; [ apply E, C1 | exact C2 ].
Qed.

(** The body of the inner loop adds the pair [(i, j)]. *)
Lemma pairs_done_step (S : nat -> nat -> Prop) simil mv i j :
  (forall a b, S a b -> a < b /\ b < n) ->
  i < j -> j < n -> ~ S i j ->
  pairs_done S (simil, mv) ->
  pairs_done (fun a b => S a b \/ (a = i /\ b = j))
    (vset simil (AffinityProp.packed n i j) (sim i j),
     if (sim i j <? mv)%float then sim i j else mv).
Proof.
  intros Hs Hi Hj Hn (L & A & B & C).
  assert (P : AffinityProp.packed n i j < length simil)
    by (rewrite L; apply packed_lt; lia).
  split; [ now rewrite vset_length | ]. split; [ | split ].
  - intros a b [H | [-> ->]].
    + rewrite nth_vset_neq; [ now apply A | ].
      intros E. destruct (Hs a b H) as [H1 H2].
      apply packed_inj in E; try lia. destruct E as [-> ->]. contradiction.
    + now apply nth_vset_eq.
  - intros a b H. destruct (sim i j <? mv)%float eqn:D.
    + destruct H as [H | [-> ->]]; [ | apply dlt_irrefl ].
      eapply dnlt_lt_trans; [ apply B, H | exact D ].
    + destruct H as [H | [-> ->]]; [ now apply B | exact D ].
  - destruct (sim i j <? mv)%float eqn:D.
    + right. exists i, j. auto.
    + destruct C as [[C1 C2] | (a & b & C1 & C2)].
      * left. split; [ exact C1 | ]. intros a b [H | [-> ->]];
          [ now apply C2 | now rewrite <- C1 ].
      * right. exists a, b. auto.
Qed.

(** The two loops of [get_similarity_] for a column of at least one
    point. *)
Lemma get_similarity_spec :
  1 <= n ->
  let simil := AffinityProp.get_similarity_ T0 dfunc col n in
  exists min_val,
    length simil = (n * (n + 1)) / 2 /\
    (forall a b, a < b -> b < n ->
       nth (AffinityProp.packed n a b) simil 0%float = sim a b) /\
    (forall i, i < n -> nth (AffinityProp.packed n i i) simil 0%float = min_val) /\
    (forall a b, a < b -> b < n -> (sim a b <? min_val)%float = false) /\
    ((min_val = Double.max /\
      forall a b, a < b -> b < n -> (sim a b <? Double.max)%float = false) \/
     (exists a b, a < b /\ b < n /\ min_val = sim a b)).
Proof.
  intros Hn. unfold AffinityProp.get_similarity_.
  replace (AffinityProp.size_sub n 1) with (n - 1)
    by (unfold AffinityProp.size_sub; destruct (Nat.leb_spec 1 n); lia).
  fold sim.
  match goal with
  | |- context [for_loop 0 (n - 1) ?body ?init] =>
      assert (G : pairs_done (fun a b => a < b /\ b < n /\ a < n - 1)
                    (for_loop 0 (n - 1) body init))
  end.
  { apply (for_loop_inv
             (fun i st => pairs_done (fun a b => a < b /\ b < n /\ a < i) st)).
    - lia.
    - split; [ apply repeat_length | ]. split; [ | split ].
      + intros a b H. lia.
      + intros a b H. lia.
      + left. split; [ reflexivity | intros a b H; lia ].
    - intros i st Hi IH.
      apply pairs_done_ext with
        (S := fun a b => a < b /\ b < n /\ (a < i \/ (a = i /\ b < n)));
        [ intros a b; cbv beta; lia | ].
      apply (for_loop_inv
               (fun j st => pairs_done
                  (fun a b => a < b /\ b < n /\ (a < i \/ (a = i /\ b < j))) st)).
      + lia.
      + eapply pairs_done_ext; [ | exact IH ]. intros a b. cbv beta. lia.
      + intros j [simil mv] Hj IHj.
        eapply pairs_done_ext; [ | apply pairs_done_step; [ | | | | exact IHj ] ].
        * intros a b. cbv beta. lia.
        * intros a b H. cbv beta in H. lia.
        * lia.
        * lia.
        * cbv beta. lia. }
  destruct (for_loop 0 (n - 1) _ _) as [simil mv].
  destruct G as (L & A & B & C).
  exists mv.
  loop_inv (fun i (s : list float) =>
              length s = (n * (n + 1)) / 2 /\
              (forall a b, a < b -> b < n ->
                 nth (AffinityProp.packed n a b) s 0%float = sim a b) /\
              (forall a, a < i ->
                 nth (AffinityProp.packed n a a) s 0%float = mv)).
  { lia. }
  { split; [ exact L | ]. split; [ | intros a Ha; lia ].
    intros a b H1 H2. apply A. lia. }
  { intros i s Hi (L' & A' & D'). split; [ now rewrite vset_length | ].
    assert (P : AffinityProp.packed n i i < length s)
      by (rewrite L'; apply packed_lt; lia).
    split.
    - intros a b H1 H2. rewrite nth_vset_neq; [ now apply A' | ].
      intros E. apply packed_inj in E; lia.
    - intros a Ha. destruct (Nat.eq_dec a i) as [-> | N].
      + now apply nth_vset_eq.
      + rewrite nth_vset_neq; [ apply D'; lia | ].
        intros E. apply packed_inj in E; lia. }
  destruct G as (L' & A' & D').
  split; [ exact L' | ]. split; [ exact A' | ]. split; [ exact D' | ]. split.
  - intros a b H1 H2. apply B. lia.
  - destruct C as [[C1 C2] | (a & b & C1 & C2)].
    + left. split; [ exact C1 | ]. intros a b H1 H2. apply C2. lia.
    + right. exists a, b. repeat split; try lia. exact C2.
Qed.

(** Without points the first loop runs [2^64 - 1] empty turns and the
    matrix is empty. *)
Lemma get_similarity_no_point :
  AffinityProp.get_similarity_ T0 dfunc col 0 = [].
Proof.
  unfold AffinityProp.get_similarity_.
  generalize (AffinityProp.size_sub 0 1) as turns. intros turns.
  rewrite (for_loop_skip 0 turns)
    by (intros i s _; apply for_loop_empty; lia).
  reflexivity.
Qed.
End SimilarityFacts.

Section SimilarityMatrix.
Variable T : Type.
Variable I : Type.
Variable T0 : T.

End SimilarityMatrix.



(* ------------------------------------------------------------------ *)
(** ** Affinity propagation: the responsibility update *)

Lemma cell_inj n a b i j :
  a < n -> i < n -> b * n + a = j * n + i -> a = i /\ b = j.
Proof.
  intros Ha Hi E.
  assert (A : a = i).
  { apply (f_equal (fun x => x mod n)) in E.
    rewrite !(Nat.add_comm (_ * n)), !Nat.Div0.mod_add, !Nat.mod_small in E by lia.
    exact E. }
  split; [ exact A | ]. subst. nia.
Qed.

Lemma cell_lt n i j : i < n -> j < n -> j * n + i < n * n.
Proof. intros. nia. Qed.

Section Responsibility.
Variable dfactor : float.
Variable simil : list float.
Variable n : nat.
Variable avail respon : list float.
Local Abbreviation code_respon := (code_respon dfactor simil n avail respon).

(** The responsibility pass writes every cell once, from the previous
    responsibility of that cell and the availabilities of the previous
    round. *)
Lemma update_respon_spec :
  length respon = n * n ->
  let respon' := AffinityProp.update_respon dfactor simil n avail respon in
  length respon' = n * n /\
  forall i j, i < n -> j < n -> r_of respon' n i j = code_respon i j.
Proof.
  intros L. unfold AffinityProp.update_respon, r_of.
  loop_inv (fun i (r : list float) =>
              length r = n * n /\
              (forall a b, a < i -> b < n ->
                 nth (b * n + a) r 0%float = code_respon a b) /\
              (forall a b, i <= a -> a < n -> b < n ->
                 nth (b * n + a) r 0%float = nth (b * n + a) respon 0%float)).
  - lia.
  - split; [ exact L | ]. split; [ intros a b Ha; lia | auto ].
  - intros i r Hi (L' & A & B).
    loop_inv (fun j (r' : list float) =>
                length r' = n * n /\
                (forall a b, a < i \/ (a = i /\ b < j) -> a < n -> b < n ->
                   nth (b * n + a) r' 0%float = code_respon a b) /\
                (forall a b, ~ (a < i \/ (a = i /\ b < j)) -> a < n -> b < n ->
                   nth (b * n + a) r' 0%float = nth (b * n + a) respon 0%float)).
    + lia.
    + split; [ exact L' | ]. split.
      * intros a b H Ha Hb. apply A; lia.
      * intros a b H Ha Hb. apply B; lia.
    + intros j r' Hj (L'' & A' & B'). split; [ now rewrite vset_length | ].
      assert (P : j * n + i < length r') by (rewrite L''; apply cell_lt; lia).
      split.
      * intros a b H Ha Hb.
        destruct (Nat.eq_dec (j * n + i) (b * n + a)) as [E | N].
        -- symmetry in E. apply cell_inj in E; [ | lia | lia ].
           destruct E as [-> ->]. rewrite nth_vset_eq by exact P.
           unfold code_respon. rewrite B' by lia. reflexivity.
        -- rewrite nth_vset_neq by exact N. apply A'; try lia.
           destruct H as [H | [-> H]]; [ lia | ].
           right. split; [ reflexivity | ].
           destruct (Nat.eq_dec b j) as [-> | D]; [ congruence | lia ].
      * intros a b H Ha Hb. rewrite nth_vset_neq.
        -- apply B'; lia.
        -- intros E. symmetry in E. apply cell_inj in E; lia.
    + destruct G as (L'' & A' & B'). split; [ exact L'' | ]. split.
      * intros a b Ha Hb. apply A'; lia.
      * intros a b H1 H2 Hb. apply B'; lia.
  - destruct G as (L' & A & _). split; [ exact L' | ].
    intros i j Hi Hj. now apply A.
Qed.
End Responsibility.

Section Rounds.
Variable dfactor : float.
Variable simil : list float.
Variable n : nat.
Local Abbreviation before_round := (before_round dfactor simil n).

Lemma update_avail_length respon avail :
  length (AffinityProp.update_avail dfactor n respon avail) = length avail.
Proof.
  unfold AffinityProp.update_avail.
  loop_inv (fun (i : nat) (a : list float) => length a = length avail).
  - lia.
  - reflexivity.
  - intros i a Hi L.
    loop_inv (fun (j : nat) (a' : list float) => length a' = length avail).
    + lia.
    + exact L.
    + intros j a' Hj L'. destruct (i =? j); now rewrite vset_length.
    + exact G.
  - exact G.
Qed.

Lemma before_round_length k :
  length (fst (before_round k)) = n * n /\
  length (snd (before_round k)) = n * n.
Proof.
  induction k as [ | k [IH1 IH2]]; simpl.
  - now rewrite repeat_length.
  - fold (before_round k). destruct (before_round k) as [avail respon].
    simpl in *. rewrite update_avail_length.
    destruct (update_respon_spec dfactor simil n avail respon IH2) as [L _].
    auto.
Qed.
End Rounds.

(** C2 on the code.  In every round the responsibility pass is complete
    before the availability pass starts, reads the availabilities of the
    previous round and blends with the previous responsibility; but the
    similarity it reads for [(i, j)] is the packed entry at
    [i * n + j - i (i + 1) / 2] also when [j < i], where that offset is the
    one the formula gives for [(i - 1, n - i + j)], an entry of an earlier
    row.  On [three_points], in the first
    round, the code stores [r(1,0) = -2.5] where the formula of the
    specification gives [1.5]. *)
Theorem respon_update_misreads_similarity :
  (forall (d : float) (simil : list float) (n k i j : nat),
     let st := before_round d simil n k in
     let st' := AffinityProp.round d simil n st in
     i < n -> j < n ->
     r_of (snd st') n i j =
       ((1 - d) *
        (nth (AffinityProp.packed n i j) simil 0 -
         AffinityProp.max_diff simil n (fst st) i j) +
        d * r_of (snd st) n i j)%float /\
     fst st' = AffinityProp.update_avail d n (snd st') (fst st)) /\
  (forall n i j, j < i -> i < n ->
     AffinityProp.packed n i j = AffinityProp.packed n (i - 1) (n - i + j)) /\
  (let simil := AffinityProp.get_similarity_ 0%float sq_diff three_points 3 in
   let zeros := repeat 0%float 9 in
   s_full simil 3 1 0 = (-1)%float /\
   nth (AffinityProp.packed 3 1 0) simil 0%float = (-9)%float /\
   r_of (snd (AffinityProp.round 0.5 simil 3 (zeros, zeros))) 3 1 0
     = (-2.5)%float /\
   spec_respon 0.5 (s_full simil 3) (a_of zeros 3) (r_of zeros 3) 3 1 0
     = 1.5%float).
Proof.
  split; [ | split ].
  - intros d simil n k i j st st' Hi Hj.
    destruct (before_round_length d simil n k) as [L1 L2]. fold st in L1, L2.
    unfold st'. destruct st as [avail respon]. simpl in *.
    destruct (update_respon_spec d simil n avail respon L2) as [_ R].
    split; [ | reflexivity ]. now apply R.
  - apply packed_below_diagonal.
  - vm_compute. repeat split.
Qed.

(* ------------------------------------------------------------------ *)
(** * Further properties of the code *)

(** ** The default distance function *)

Lemma binary_round_aux_opp m e l :
  binary_round_aux prec emax true m e l =
  SFopp (binary_round_aux prec emax false m e l).
Proof.
  unfold binary_round_aux.
  destruct (shr_fexp prec emax m e l) as [mrs' e'].
  destruct (shr_fexp prec emax _ e' loc_Exact) as [mrs'' e''].
  destruct (shr_m mrs''); try reflexivity.
  destruct (e'' <=? emax - prec)%Z; reflexivity.
Qed.

Lemma binary_round_opp m e :
  binary_round prec emax true m e = SFopp (binary_round prec emax false m e).
Proof.
  unfold binary_round. destruct (shl_align m e _) as [mz ez].
  apply binary_round_aux_opp.
Qed.

Lemma binary_normalize_mirror (z : Z) e :
  mirror (binary_normalize prec emax z e false)
         (binary_normalize prec emax (- z) e false).
Proof.
  destruct z as [ | p | p]; simpl.
  - right. eauto.
  - left. apply binary_round_opp.
  - left. rewrite binary_round_opp.
    destruct (binary_round prec emax false p e) as [ [] | [] | | [] ? ?];
      reflexivity.
Qed.

(** [x - y] and [y - x] are opposite doubles, or both zeros. *)
Lemma SF64sub_mirror (X Y : spec_float) : mirror (SF64sub X Y) (SF64sub Y X).
Proof.
  unfold SF64sub, SFsub.
  destruct X as [sx | sx | | sx mx ex], Y as [sy | sy | | sy my ey];
    try (left; destruct sx; destruct sy; reflexivity);
    try (left; destruct sx; reflexivity);
    try (left; destruct sy; reflexivity);
    try (left; reflexivity).
  - right. destruct sx, sy; eauto.
  - rewrite (Z.min_comm ey ex).
    set (P := Zpos (fst (shl_align mx ex (Z.min ex ey)))).
    set (Q := Zpos (fst (shl_align my ey (Z.min ex ey)))).
    replace (cond_Zopp sy Q - cond_Zopp sx P)%Z
      with (- (cond_Zopp sx P - cond_Zopp sy Q))%Z by lia.
    apply binary_normalize_mirror.
Qed.

Lemma SF64mul_mirror (A B : spec_float) :
  mirror A B -> SF64mul A A = SF64mul B B.
Proof.
  intros [-> | (s & s' & -> & ->)].
  - destruct A as [[] | [] | | [] m e]; reflexivity.
  - destruct s, s'; reflexivity.
Qed.

(** A square is a zero, a positive number, plus infinity or a NaN. *)
Lemma SF64mul_square_shape (A : spec_float) :
  match SF64mul A A with
  | S754_zero _ | S754_infinity false | S754_finite false _ _ | S754_nan => True
  | _ => False
  end.
Proof.
  destruct A as [[] | [] | | s m e]; try exact I.
  unfold SF64mul, SFmul. replace (xorb s s) with false by (now destruct s).
  unfold binary_round_aux.
  destruct (shr_fexp prec emax _ _ loc_Exact) as [mrs' e'].
  destruct (shr_fexp prec emax _ e' loc_Exact) as [mrs'' e''].
  destruct (shr_m mrs''); try exact I.
  destruct (e'' <=? emax - prec)%Z; exact I.
Qed.

(** X1.  The default distance function is symmetric, for all doubles:
    the symmetry that affinity propagation relies on holds of
    [(x - y) * (x - y)] without any condition on the values. *)
Theorem sq_diff_symmetric (x y : float) : sq_diff x y = sq_diff y x.
Proof.
  unfold sq_diff. apply Prim2SF_inj. rewrite !mul_spec, !sub_spec.
  apply SF64mul_mirror, SF64sub_mirror.
Qed.

(** X2.  The default distance is never negative: it is not below zero,
    and unless it is a NaN it is at least zero. *)
Theorem sq_diff_not_negative (x y : float) :
  (sq_diff x y <? 0)%float = false /\
  (Double.ordered (sq_diff x y) -> (0 <=? sq_diff x y)%float = true).
Proof.
  unfold Double.ordered, sq_diff. rewrite ltb_spec, leb_spec, mul_spec.
  change (Prim2SF 0) with (S754_zero false).
  pose proof (SF64mul_square_shape (Prim2SF (x - y))) as H.
  destruct (SF64mul (Prim2SF (x - y)) (Prim2SF (x - y))) as [s | [] | | [] m e];
    try contradiction; split; try reflexivity; try congruence;
    intros _; reflexivity.
Qed.

Lemma sq_diff_not_negative_witness :
  Double.ordered (sq_diff 1 3) /\ (0 <=? sq_diff 1 3)%float = true.
Proof.
  assert (O : Double.ordered (sq_diff 1 3)) by (vm_compute; discriminate).
  split; [ exact O | exact (proj2 (sq_diff_not_negative 1 3) O) ].
Defined.

(** X3.  Under the default distance a finite value is at distance zero
    from itself (an infinity or a NaN is not: the difference is a NaN). *)
Theorem sq_diff_self (x : float) :
  finite_double x = true -> sq_diff x x = 0%float.
Proof.
  unfold finite_double, sq_diff. intros H. apply Prim2SF_inj.
  rewrite mul_spec, sub_spec. change (Prim2SF 0) with (S754_zero false).
  destruct (Prim2SF x) as [[] | [] | | s m e]; try discriminate;
    try reflexivity.
  unfold SF64sub, SFsub. rewrite Z.sub_diag. reflexivity.
Qed.

Lemma sq_diff_self_witness :
  finite_double 10 = true /\ sq_diff 10 10 = 0%float.
Proof.
  split; [ vm_compute; reflexivity | ].
  apply (sq_diff_self 10). vm_compute. reflexivity.
Defined.

(** An infinity or a NaN is not at distance zero from itself: the
    difference is a NaN, and so is its square. *)
Lemma sq_diff_self_not_finite (x : float) :
  finite_double x = false -> Prim2SF (sq_diff x x) = S754_nan.
Proof.
  unfold finite_double, sq_diff. intros H. rewrite mul_spec, sub_spec.
  destruct (Prim2SF x) as [[] | [] | | s m e]; try discriminate;
    reflexivity.
Qed.

Example sq_diff_infinity : Prim2SF (sq_diff infinity infinity) = S754_nan.
Proof. vm_compute. reflexivity. Qed.

(* ------------------------------------------------------------------ *)
(** ** K-means: the assignment step *)

(** The scan gives the same index whatever the index variable holds
    before it: what differs is only the value of a variable that is never
    assigned. *)
Lemma nearest_unwrap {Ix : Type} (some : nat -> Ix) (none : Ix)
    (dist : nat -> float) (k : nat) :
  nearest some none dist k =
  (fst (nearest Some None dist k),
   match snd (nearest Some None dist k) with
   | Some g => some g
   | None => none
   end).
Proof.
  induction k as [ | k IH]; [ reflexivity | ].
  unfold nearest in *. rewrite !for_loop_last by lia. rewrite IH.
  destruct (for_loop 0 k _ (Double.max, None)) as [md mi]. simpl.
  destruct (dist k <? md)%float; reflexivity.
Qed.

Section KMeansAssignment.
Variable K : nat.
Variable T : Type.
Variable T0 : T.
Variable tadd : T -> T -> T.
Variable tdiv : T -> float -> T.
Variable dfunc : T -> T -> float.
Variable col : list T.
Variable col_size : nat.

Local Abbreviation best_cluster := (KMeans.best_cluster K T0 dfunc col).
Local Abbreviation find_assignments :=
  (KMeans.find_assignments K T0 dfunc col col_size).
Local Abbreviation iteration :=
  (KMeans.iteration K T0 tadd tdiv dfunc col col_size).
Local Abbreviation iterate :=
  (KMeans.iterate K T0 tadd tdiv dfunc col col_size).
Local Abbreviation new_centroids :=
  (new_centroids K T0 tadd tdiv dfunc col col_size).
Local Abbreviation moves := (moves K T0 tadd tdiv dfunc col col_size).

Lemma find_assignments_spec km asg :
  length asg = col_size ->
  find_assignments km asg = map (best_cluster km) (seq 0 col_size).
Proof.
  intros L. unfold KMeans.find_assignments.
  loop_inv (fun i (a : list nat) =>
              length a = col_size /\
              forall p, p < i -> nth p a 0 = best_cluster km p).
  - lia.
  - split; [ exact L | intros p Hp; lia ].
  - intros i a Hi [La N]. split; [ now rewrite vset_length | ].
    intros p Hp. rewrite nth_vset by lia.
    destruct (Nat.eq_dec i p) as [-> | D]; [ reflexivity | apply N; lia ].
  - destruct G as [La N]. now apply list_eq_map_seq with (d := 0).
Qed.

Lemma best_cluster_scanned km p :
  let d c := dfunc (nth p col T0) (nth c km T0) in
  let g := best_cluster km p in
  (g = 0 /\ forall c, c < K -> (d c <? Double.max)%float = false) \/
  (g < K /\ (d g <? Double.max)%float = true /\
   (forall c, c < K -> (d c <? d g)%float = false) /\
   (forall c, c < g -> Double.ordered (d c) -> (d g <? d c)%float = true)).
Proof.
  intros d g. unfold g, KMeans.best_cluster. fold d.
  destruct (nearest_scanned (fun c => c) 0 d K)
    as [[E A] | (x & Hx & E & B1 & B2 & B3)];
    rewrite E; simpl; [ left | right ]; auto.
Qed.

(** X4.  The assignment step of a turn, with at least one cluster:
    it overwrites the whole assignment vector, so its result does not
    depend on the previous assignments; every stored index is a valid
    cluster index; and for every point it is either 0 because no distance
    of the point is strictly below the largest finite double, or the
    index of a centroid no other centroid is nearer than, strictly nearer
    than every earlier centroid whose distance is not a NaN. *)
Theorem kmeans_assignment_step km asg :
  length asg = col_size ->
  1 <= K ->
  let asg' := find_assignments km asg in
  length asg' = col_size /\
  (forall asg2, length asg2 = col_size -> find_assignments km asg2 = asg') /\
  forall p, p < col_size ->
    let d c := dfunc (nth p col T0) (nth c km T0) in
    let g := nth p asg' 0 in
    g < K /\
    ((g = 0 /\ forall c, c < K -> (d c <? Double.max)%float = false) \/
     ((d g <? Double.max)%float = true /\
      (forall c, c < K -> (d c <? d g)%float = false) /\
      (forall c, c < g -> Double.ordered (d c) ->
                 (d g <? d c)%float = true))).
Proof.
  intros L HK asg'. unfold asg'. rewrite find_assignments_spec by exact L.
  split; [ now rewrite length_map, length_seq | ]. split.
  - intros asg2 L2. now apply find_assignments_spec.
  - intros p Hp. cbv zeta. rewrite nth_map_seq by exact Hp.
    pose proof (best_cluster_scanned km p) as B. cbv zeta in B.
    destruct B as [[E A] | (G & B)].
    + split; [ rewrite E; lia | left; split; assumption ].
    + split; [ exact G | right; exact B ].
Qed.

(** X5.  A turn that sets [done] has changed no centroid, and the state
    it leaves is a fixed point of the turn: running the turn again sets
    [done] again and changes nothing. *)
Theorem kmeans_converged_turn_is_fixed_point (st : list T * list nat) :
  length (fst st) = K ->
  length (snd st) = col_size ->
  fst (iteration st) = true ->
  fst (snd (iteration st)) = fst st /\
  iteration (snd (iteration st)) = (true, snd (iteration st)).
Proof.
  intros L La D.
  pose proof (proj1 (done_iff_none_moves K T T0 tadd tdiv dfunc col col_size st L) D)
    as M.
  assert (E : snd (iteration st) = (fst st, find_assignments (fst st) (snd st))).
  { rewrite iteration_spec by exact L. simpl. f_equal.
    symmetry. apply list_eq_map_seq with (d := T0); [ exact L | ].
    intros c Hc. now rewrite M. }
  split; [ now rewrite E | ].
  rewrite E.
  set (st' := (fst st, find_assignments (fst st) (snd st))).
  assert (A : find_assignments (fst st') (snd st') =
              find_assignments (fst st) (snd st)).
  { unfold st'. simpl. rewrite (find_assignments_spec (fst st) (snd st) La).
    apply find_assignments_spec. now rewrite length_map, length_seq. }
  assert (N : new_centroids st' = new_centroids st).
  { unfold new_centroids. now rewrite A. }
  assert (M' : forall c, moves st' c = moves st c).
  { intros c. unfold moves. now rewrite N. }
  rewrite iteration_spec by exact L. f_equal.
  - rewrite forallb_forall. intros c Hc. apply in_seq in Hc.
    rewrite M', M by lia. reflexivity.
  - rewrite A.
    replace (map (fun c => if moves st' c then nth c (new_centroids st') T0
                           else nth c (fst st') T0) (seq 0 K))
      with (fst st); [ reflexivity | ].
    apply list_eq_map_seq with (d := T0); [ exact L | ].
    intros c Hc. now rewrite M', M.
Qed.

Lemma iterate_beyond left extra st :
  snd (iterate left st) < left ->
  iterate (left + extra) st = iterate left st.
Proof.
  revert st. induction left as [ | left IH]; intros st H; simpl in *; [ lia | ].
  destruct (iteration st) as [done st'].
  destruct done; [ reflexivity | ].
  specialize (IH st'). destruct (iterate left st') as [st'' n]. simpl in *.
  rewrite IH by lia. reflexivity.
Qed.
End KMeansAssignment.

Lemma kmeans_assignment_step_witness :
  let asg := KMeans.find_assignments 2 0%float sq_diff six_points 6
               [0; 10]%float (repeat 0 6) in
  length (repeat 0 6) = 6 /\ 1 <= 2 /\ length asg = 6 /\ nth 4 asg 0 < 2.
Proof.
  intros asg.
  destruct (kmeans_assignment_step 2 float 0%float sq_diff six_points 6
              [0; 10]%float (repeat 0 6) eq_refl ltac:(lia)) as (L & _ & P).
  split; [ reflexivity | ].
  split; [ lia | ].
  split; [ exact L | ].
  exact (proj1 (P 4 ltac:(lia))).
Defined.

Lemma kmeans_converged_turn_is_fixed_point_witness :
  let st := ([0; 10]%float, repeat 0 6) in
  let turn := KMeans.iteration 2 0%float PrimFloat.add PrimFloat.div sq_diff
                six_points 6 in
  fst (turn st) = true /\ turn (snd (turn st)) = (true, snd (turn st)).
Proof.
  intros st turn.
  assert (D : fst (turn st) = true) by (vm_compute; reflexivity).
  split; [ exact D | ].
  exact (proj2 (kmeans_converged_turn_is_fixed_point 2 float 0%float
                  PrimFloat.add PrimFloat.div sq_diff six_points 6 st
                  eq_refl eq_refl D)).
Defined.

(* ------------------------------------------------------------------ *)
(** ** K-means: the iteration cap and the clusters *)

Section KMeansCap.
Variable K : nat.
Variable T : Type.
Variable I : Type.
Variable T0 : T.
Variable tadd : T -> T -> T.
Variable tdiv : T -> float -> T.
Implicit Types (v : KMeans.KMeansVisitor T) (col : list T) (idx : list I).

(** X6.  Once a call has converged before its iteration cap, a larger
    cap changes neither the centroids nor the number of turns: the loop
    leaves at the same turn. *)
Theorem kmeans_cap_beyond_convergence v (rd : nat -> nat) idx col (extra : nat) :
  KMeans.iterations_run K T0 tadd tdiv v rd idx col < KMeans.iter_num_ v ->
  let v' := with_cap v (KMeans.iter_num_ v + extra) in
  KMeans.get_result (KMeans.compute K T0 tadd tdiv v' rd idx col) =
    KMeans.get_result (KMeans.compute K T0 tadd tdiv v rd idx col) /\
  KMeans.iterations_run K T0 tadd tdiv v' rd idx col =
    KMeans.iterations_run K T0 tadd tdiv v rd idx col.
Proof.
  unfold KMeans.iterations_run, KMeans.compute, KMeans.calc_k_means_,
    KMeans.calc_k_means_trace, KMeans.get_result, with_cap. simpl.
  set (n := Nat.min (length idx) (length col)).
  set (st0 := (KMeans.pick_centroids K T0 col rd (KMeans.k_means_ v),
               repeat 0 n)).
  intros H.
  assert (R : snd (KMeans.iterate K T0 tadd tdiv (KMeans.dfunc_ v) col n
                     (KMeans.iter_num_ v) st0) < KMeans.iter_num_ v).
  { destruct (KMeans.iterate K T0 tadd tdiv (KMeans.dfunc_ v) col n
                (KMeans.iter_num_ v) st0) as [[km asg] r]. exact H. }
  rewrite (iterate_beyond K T T0 tadd tdiv (KMeans.dfunc_ v) col n
             (KMeans.iter_num_ v) extra st0 R).
  destruct (KMeans.iterate K T0 tadd tdiv (KMeans.dfunc_ v) col n
              (KMeans.iter_num_ v) st0) as [[km asg] r].
  split; reflexivity.
Qed.

(** X7.  The centroid set has exactly K entries after [operator()], as
    it had before; with an iteration cap of zero it holds the K sampled
    column values. *)
Theorem kmeans_result_size v (rd : nat -> nat) idx col :
  length (KMeans.get_result v) = K ->
  length (KMeans.get_result (KMeans.compute K T0 tadd tdiv v rd idx col)) = K /\
  (KMeans.iter_num_ v = 0 ->
   KMeans.get_result (KMeans.compute K T0 tadd tdiv v rd idx col) =
   map (fun c => nth (rd c) col T0) (seq 0 K)).
Proof.
  intros L. split; [ now apply compute_length | ].
  intros Z. unfold KMeans.get_result, KMeans.compute, KMeans.calc_k_means_,
    KMeans.calc_k_means_trace. rewrite Z. simpl.
  now apply pick_centroids_spec.
Qed.
End KMeansCap.

Lemma kmeans_cap_beyond_convergence_witness :
  let v := kmeans_default 2 10 in
  let rd := fun c => match c with 0 => 0 | _ => 3 end in
  KMeans.iterations_run 2 0%float PrimFloat.add PrimFloat.div v rd
    (seq 0 6) six_points < KMeans.iter_num_ v /\
  KMeans.get_result
    (KMeans.compute 2 0%float PrimFloat.add PrimFloat.div (with_cap v (10 + 5))
       rd (seq 0 6) six_points) =
  KMeans.get_result
    (KMeans.compute 2 0%float PrimFloat.add PrimFloat.div v rd (seq 0 6)
       six_points).
Proof.
  intros v rd.
  assert (H : KMeans.iterations_run 2 0%float PrimFloat.add PrimFloat.div v rd
                (seq 0 6) six_points < KMeans.iter_num_ v)
    by (vm_compute; lia).
  split; [ exact H | ].
  exact (proj1 (kmeans_cap_beyond_convergence 2 float nat 0%float
                  PrimFloat.add PrimFloat.div v rd (seq 0 6) six_points 5 H)).
Defined.

Lemma kmeans_result_size_witness :
  let v := kmeans_default 2 10 in
  length (KMeans.get_result v) = 2 /\
  length (KMeans.get_result
            (KMeans.compute 2 0%float PrimFloat.add PrimFloat.div v
               (fun c => c) (seq 0 6) six_points)) = 2.
Proof.
  intros v. split; [ reflexivity | ].
  apply (kmeans_result_size 2 float nat 0%float PrimFloat.add PrimFloat.div v
           (fun c => c) (seq 0 6) six_points).
  reflexivity.
Defined.

(* ------------------------------------------------------------------ *)
(** ** K-means: coinciding centroids *)

Lemma filter_none {A : Type} (f : A -> bool) (l : list A) :
  (forall x, In x l -> f x = false) -> filter f l = [].
Proof.
  induction l as [ | a l IH]; intros H; simpl; [ reflexivity | ].
  rewrite (H a) by now left. apply IH. intros x Hx. apply H. now right.
Qed.

Section KMeansTies.
Variable K : nat.
Variable T : Type.
Variable T0 : T.
Variable dfunc : T -> T -> float.
Variable col : list T.
Variable col_size : nat.

(** X8.  The scan replaces its best cluster on a strictly smaller
    distance only, so of two clusters whose centroids coincide (the
    seeding draws with replacement) the one with the higher index is
    given no point by the assignment step. *)
Theorem kmeans_duplicate_centroid_gets_no_point (km : list T)
    (asg : list nat) (a b : nat) :
  length asg = col_size ->
  a < b ->
  nth a km T0 = nth b km T0 ->
  assigned (KMeans.find_assignments K T0 dfunc col col_size km asg)
           col_size b = [].
Proof.
  intros L Hab E. unfold assigned.
  rewrite (find_assignments_spec K T T0 dfunc col col_size km asg L).
  apply filter_none. intros p Hp. apply in_seq in Hp.
  rewrite nth_map_seq by lia. apply Nat.eqb_neq. intros G.
  pose proof (best_cluster_scanned K T T0 dfunc col km p) as B.
  cbv zeta in B. rewrite G in B.
  destruct B as [[Z _] | (_ & B1 & _ & B3)]; [ lia | ].
  specialize (B3 a Hab). rewrite E in B3.
  rewrite dlt_irrefl in B3.
  assert (X : false = true); [ | discriminate X ].
  apply B3. eapply dlt_ordered_l. exact B1.
Qed.
End KMeansTies.

Lemma kmeans_duplicate_centroid_gets_no_point_witness :
  length (repeat 0 6) = 6 /\ 0 < 1 /\
  assigned (KMeans.find_assignments 2 0%float sq_diff six_points 6
              [10; 10]%float (repeat 0 6)) 6 1 = [].
Proof.
  split; [ reflexivity | ]. split; [ lia | ].
  apply (kmeans_duplicate_centroid_gets_no_point 2 float 0%float sq_diff
           six_points 6 [10; 10]%float (repeat 0 6) 0 1);
    [ reflexivity | lia | reflexivity ].
Defined.

(* ------------------------------------------------------------------ *)
(** ** The point loop of both [get_clusters], whenever it is defined *)

Lemma sorted_filter_seq (f : nat -> bool) a n :
  StronglySorted lt (filter f (seq a n)).
Proof.
  revert a. induction n as [ | n IH]; intros a; simpl; [ constructor | ].
  destruct (f a); [ | apply IH ].
  constructor; [ apply IH | ].
  apply Forall_forall. intros x Hx. apply filter_In in Hx.
  destruct Hx as [Hx _]. apply in_seq in Hx. lia.
Qed.

Lemma concat_push_back_length cl m p :
  m < length cl ->
  length (concat (push_back cl m p)) = S (length (concat cl)).
Proof.
  unfold push_back. revert m. induction cl as [ | c cl IH]; intros m H;
    simpl in H; [ lia | ].
  destruct m as [ | m]; simpl.
  - rewrite !length_app. simpl. lia.
  - rewrite !length_app. rewrite IH by lia. lia.
Qed.

Section AssignPointsDefined.
Variable choose : nat -> option nat.

(** A defined result means every point found an index. *)
Lemma assign_points_defined n init cl :
  assign_points choose n init = Some cl ->
  forall j, j < n -> exists m, choose j = Some m.
Proof.
  intros E j Hj. destruct (choose j) as [m | ] eqn:C; [ now exists m | ].
  rewrite (assign_points_none choose n init j Hj C) in E. discriminate.
Qed.

Lemma assign_points_count n init cl :
  (forall j m, choose j = Some m -> m < length init) ->
  assign_points choose n init = Some cl ->
  length (concat cl) = length (concat init) + n.
Proof.
  intros B. unfold assign_points. revert cl.
  apply (for_loop_inv
           (fun i (ocl : option (list (list ptr))) =>
              forall cl, ocl = Some cl ->
                length cl = length init /\
                length (concat cl) = length (concat init) + i));
    [ lia | | ].
  - intros cl E. inversion E; subst. split; [ reflexivity | lia ].
  - intros i ocl Hi IH cl E. destruct ocl as [cl0 | ]; [ | discriminate ].
    destruct (choose i) as [m | ] eqn:C; [ | discriminate ].
    inversion E; subst. destruct (IH cl0 eq_refl) as [L N].
    split; [ now rewrite push_back_length | ].
    rewrite concat_push_back_length; [ lia | ].
    rewrite L. eapply B; eauto.
Qed.

Lemma assign_points_filter n init cl :
  (forall j m, choose j = Some m -> m < length init) ->
  assign_points choose n init = Some cl ->
  let g j := match choose j with Some m => m | None => 0 end in
  length cl = length init /\
  forall m, m < length init ->
    nth m cl [] =
    nth m init [] ++ map Elem (filter (fun j => g j =? m) (seq 0 n)).
Proof.
  intros B E g.
  pose proof (assign_points_defined n init cl E) as D.
  destruct (assign_points_some choose g n init) as (cl' & E' & L & N).
  { intros j Hj. destruct (D j Hj) as (m & C). unfold g. rewrite C.
    split; [ reflexivity | eapply B; eauto ]. }
  rewrite E in E'. inversion E'; subst cl'. split; [ exact L | exact N ].
Qed.

Lemma in_filter_chosen n init cl m j :
  assign_points choose n init = Some cl ->
  let g j := match choose j with Some m => m | None => 0 end in
  In j (filter (fun j => g j =? m) (seq 0 n)) <->
  j < n /\ choose j = Some m.
Proof.
  intros E g.
  pose proof (assign_points_defined n init cl E) as D.
  rewrite filter_In, in_seq, Nat.eqb_eq. split.
  - intros [Hj Hg]. split; [ lia | ].
    destruct (D j ltac:(lia)) as (m' & C). unfold g in Hg. rewrite C in Hg.
    congruence.
  - intros [Hj C]. split; [ lia | ]. unfold g. now rewrite C.
Qed.
End AssignPointsDefined.

Lemma nearest_index_in_range dist k m :
  snd (nearest Some None dist k) = Some m -> m < k.
Proof.
  destruct (nearest_scanned Some None dist k) as [[E _] | (g & Hg & E & _)];
    rewrite E; simpl; intros X; inversion X; subst; exact Hg.
Qed.

Section KMeansGroups.
Variable K : nat.
Variable T : Type.
Variable I : Type.
Variable T0 : T.
Implicit Types (v : KMeans.KMeansVisitor T) (col : list T) (idx : list I).

Lemma length_concat_singletons (f : nat -> ptr) a k :
  length (concat (map (fun m => [f m]) (seq a k))) = k.
Proof.
  revert a. induction k as [ | k IH]; intros a; simpl; [ reflexivity | ].
  now rewrite IH.
Qed.

Lemma kmeans_min_idx_in_range v col j m :
  KMeans.min_idx K T0 v col j = Some m ->
  m < length (map (fun m => [Mean m]) (seq 0 K)).
Proof.
  intros C. rewrite length_map, length_seq.
  eapply nearest_index_in_range. exact C.
Qed.

Lemma kmeans_groups v idx col clusters :
  let n := Nat.min (length idx) (length col) in
  let g j := match KMeans.min_idx K T0 v col j with
             | Some m => m | None => 0 end in
  KMeans.get_clusters K T0 v idx col = Some clusters ->
  length clusters = K /\
  forall m, m < K ->
    nth m clusters [] =
    Mean m :: map Elem (filter (fun j => g j =? m) (seq 0 n)).
Proof.
  intros n g. unfold KMeans.get_clusters. fold n. rewrite initial_clusters.
  intros E.
  destruct (assign_points_filter _ _ _ _ (kmeans_min_idx_in_range v col) E)
    as [L G].
  rewrite length_map, length_seq in L, G. split; [ exact L | ].
  intros m Hm. rewrite G, nth_map_seq by exact Hm. reflexivity.
Qed.

(** X9.  Whenever K-means [get_clusters] is defined, it returns K views
    holding K + n entries in all: view [m] starts with centroid [m] and
    goes on with the points whose scan ended on [m], in increasing
    column position. *)
Theorem kmeans_clusters_count_and_order v idx col clusters :
  let n := Nat.min (length idx) (length col) in
  KMeans.get_clusters K T0 v idx col = Some clusters ->
  length clusters = K /\
  length (concat clusters) = K + n /\
  forall m, m < K ->
    exists pts, nth m clusters [] = Mean m :: map Elem pts /\
      StronglySorted lt pts /\
      forall j, In j pts <-> j < n /\ KMeans.min_idx K T0 v col j = Some m.
Proof.
  intros n E. destruct (kmeans_groups v idx col clusters E) as [L G].
  split; [ exact L | ]. split.
  - unfold KMeans.get_clusters in E. fold n in E.
    rewrite initial_clusters in E.
    rewrite (assign_points_count _ _ _ _ (kmeans_min_idx_in_range v col) E).
    now rewrite length_concat_singletons.
  - intros m Hm. eexists. split; [ apply G; exact Hm | ].
    split; [ apply sorted_filter_seq | ].
    intros j. unfold KMeans.get_clusters in E.
    eapply in_filter_chosen. exact E.
Qed.

(** X10.  Under the precondition on the distances, [get_clusters] puts
    the points where the assignment step of [calc_k_means_] would put
    them for the stored centroids: its second scan agrees with the
    first. *)
Theorem kmeans_clusters_follow_assignment v idx col :
  let n := Nat.min (length idx) (length col) in
  let asg := KMeans.find_assignments K T0 (KMeans.dfunc_ v) col n
               (KMeans.k_means_ v) (repeat 0 n) in
  1 <= K ->
  below_max_all (km_dist T0 v col) n K = true ->
  exists clusters,
    KMeans.get_clusters K T0 v idx col = Some clusters /\
    clusters = map (fun m => Mean m :: map Elem (assigned asg n m)) (seq 0 K).
Proof.
  intros n asg HK Hd.
  assert (A : asg = map (fun j =>
                match KMeans.min_idx K T0 v col j with
                | Some m => m | None => 0 end) (seq 0 n)).
  { unfold asg.
    rewrite (find_assignments_spec K T T0 (KMeans.dfunc_ v) col n)
      by apply repeat_length.
    apply map_ext. intros j. unfold KMeans.best_cluster, KMeans.min_idx.
    rewrite nearest_unwrap. reflexivity. }
  destruct (get_clusters_partition K T I T0 v idx col HK Hd)
    as (cl & E & L & _).
  exists cl. split; [ exact E | ].
  destruct (kmeans_groups v idx col cl E) as (_ & G).
  apply list_eq_map_seq with (d := []); [ exact L | ].
  intros m Hm. rewrite (G m Hm). do 2 f_equal. unfold assigned.
  apply filter_ext_in. intros j Hj. apply in_seq in Hj. rewrite A.
  rewrite nth_map_seq by lia. reflexivity.
Qed.

(** X11.  The two edges of K-means [get_clusters]: with no point to
    place it returns the K views holding one centroid each, whatever the
    distances; with K = 0 and a point to place it is undefined. *)
Theorem kmeans_get_clusters_edges v idx col :
  let n := Nat.min (length idx) (length col) in
  (n = 0 ->
   KMeans.get_clusters K T0 v idx col =
   Some (map (fun m => [Mean m]) (seq 0 K))) /\
  (K = 0 -> 1 <= n -> KMeans.get_clusters K T0 v idx col = None).
Proof.
  intros n. split.
  - intros Z. unfold KMeans.get_clusters. fold n. rewrite Z, initial_clusters.
    reflexivity.
  - intros Z Hn. unfold KMeans.get_clusters.
    apply assign_points_none with (j := 0); [ exact Hn | ].
    unfold KMeans.min_idx. apply nearest_none_iff. intros c Hc. lia.
Qed.
End KMeansGroups.

Lemma kmeans_clusters_count_and_order_witness :
  let v := six_points_visitor in
  exists clusters,
    KMeans.get_clusters 2 0%float v (seq 0 6) six_points = Some clusters /\
    length (concat clusters) = 2 + 6.
Proof.
  intros v. eexists. split; [ vm_compute; reflexivity | ].
  refine (proj1 (proj2 (kmeans_clusters_count_and_order 2 float nat 0%float v
                          (seq 0 6) six_points _ _))).
  vm_compute. reflexivity.
Defined.

Lemma kmeans_clusters_follow_assignment_witness :
  let v := six_points_visitor in
  1 <= 2 /\
  below_max_all (km_dist 0%float v six_points) 6 2 = true /\
  exists clusters,
    KMeans.get_clusters 2 0%float v (seq 0 6) six_points = Some clusters.
Proof.
  intros v. split; [ lia | ].
  assert (B : below_max_all (km_dist 0%float v six_points) 6 2 = true)
    by (vm_compute; reflexivity).
  split; [ exact B | ].
  destruct (kmeans_clusters_follow_assignment 2 float nat 0%float v (seq 0 6)
              six_points ltac:(lia) B) as (cl & E & _).
  exists cl. exact E.
Defined.

Lemma kmeans_get_clusters_edges_witness :
  KMeans.get_clusters 2 0%float six_points_visitor (@nil nat) six_points =
  Some [[Mean 0]; [Mean 1]].
Proof.
  exact (proj1 (kmeans_get_clusters_edges 2 float nat 0%float
                  six_points_visitor [] six_points) eq_refl).
Defined.

(* ------------------------------------------------------------------ *)
(** ** Affinity propagation: the views of [get_clusters] *)

Section AffinityPropGroups.
Variable T : Type.
Variable I : Type.
Variable T0 : T.
Implicit Types (v : AffinityProp.AffinityPropVisitor T) (col : list T)
  (idx : list I).

Lemma length_concat_empty k : length (concat (repeat (@nil ptr) k)) = 0.
Proof. induction k as [ | k IH]; simpl; auto. Qed.

Lemma ap_min_idx_in_range v col j m :
  AffinityProp.min_idx T0 v col j = Some m ->
  m < length (repeat (@nil ptr) (length (AffinityProp.centers_ v))).
Proof.
  intros C. rewrite repeat_length.
  eapply nearest_index_in_range. exact C.
Qed.

(** X12.  Whenever [get_clusters] of the affinity propagation is
    defined, it returns one view per exemplar.  With at least one
    exemplar the views hold the n points, each view in increasing column
    position; with none the result is empty and the points are in no
    view. *)
Theorem ap_clusters_count_and_order v idx col clusters :
  let n := Nat.min (length idx) (length col) in
  let k := length (AffinityProp.centers_ v) in
  AffinityProp.get_clusters T0 v idx col = Some clusters ->
  length clusters = k /\
  (1 <= k -> length (concat clusters) = n) /\
  (k = 0 -> clusters = []) /\
  forall m, m < k ->
    exists pts, nth m clusters [] = map Elem pts /\
      StronglySorted lt pts /\
      forall j, In j pts <->
                j < n /\ AffinityProp.min_idx T0 v col j = Some m.
Proof.
  intros n k. unfold AffinityProp.get_clusters. fold n k.
  destruct (Nat.ltb_spec 0 k) as [Hk | Hk].
  - rewrite resize_nil. intros E.
    destruct (assign_points_filter _ _ _ _ (ap_min_idx_in_range v col) E)
      as [L G].
    fold k in L, G. rewrite repeat_length in L, G.
    split; [ exact L | ]. split; [ | split; [ lia | ] ].
    + intros _.
      rewrite (assign_points_count _ _ _ _ (ap_min_idx_in_range v col) E).
      now rewrite length_concat_empty.
    + intros m Hm. eexists. split.
      * rewrite (G m Hm), nth_repeat_same. reflexivity.
      * split; [ apply sorted_filter_seq | ].
        intros j. eapply in_filter_chosen. exact E.
  - intros E. inversion E; subst. split; [ simpl; lia | ].
    split; [ lia | ]. split; [ reflexivity | ]. intros m Hm. lia.
Qed.
End AffinityPropGroups.

Lemma ap_clusters_count_and_order_witness :
  exists clusters,
    AffinityProp.get_clusters 0%float two_groups_visitor (seq 0 6) two_groups =
      Some clusters /\
    length clusters = length (AffinityProp.centers_ two_groups_visitor).
Proof.
  eexists. split; [ vm_compute; reflexivity | ].
  refine (proj1 (ap_clusters_count_and_order float nat 0%float
                   two_groups_visitor (seq 0 6) two_groups _ _)).
  vm_compute. reflexivity.
Defined.

(* ------------------------------------------------------------------ *)
(** ** Affinity propagation: the availability pass *)

Section SkippingLoops.
Context {S : Type}.
Variable f : nat -> S -> S.
Variable skip : nat -> bool.
Local Abbreviation skipping :=
  (fun (s : S) (ii : nat) => if skip ii then s else f ii s).

Lemma fold_skip_none lo hi s :
  (forall ii, lo <= ii < hi -> skip ii = false) ->
  fold_left skipping (seq lo (hi - lo)) s = for_loop lo hi f s.
Proof.
  intros H. unfold for_loop.
  assert (G : forall ii, In ii (seq lo (hi - lo)) -> skip ii = false)
    by (intros ii Hi; apply in_seq in Hi; apply H; lia).
  revert s G. generalize (seq lo (hi - lo)) as l.
  induction l as [ | a l IH]; intros s G; simpl; [ reflexivity | ].
  rewrite (G a) by now left. apply IH. intros ii Hi. apply G. now right.
Qed.

Lemma seq_split_at lo a hi :
  lo <= a < hi ->
  seq lo (hi - lo) = seq lo (a - lo) ++ a :: seq (a + 1) (hi - (a + 1)).
Proof.
  intros H. replace (hi - lo) with ((a - lo) + Datatypes.S (hi - (a + 1))) by lia.
  rewrite seq_app. simpl. repeat f_equal; lia.
Qed.

Lemma fold_skip_one lo a hi s :
  lo <= a < hi -> skip a = true ->
  (forall ii, lo <= ii < hi -> ii <> a -> skip ii = false) ->
  fold_left skipping (seq lo (hi - lo)) s =
  for_loop (a + 1) hi f (for_loop lo a f s).
Proof.
  intros H Ha Hn. rewrite (seq_split_at lo a hi H), fold_left_app. simpl.
  rewrite Ha.
  rewrite !fold_skip_none; [ reflexivity | | ]; intros ii Hi; apply Hn; lia.
Qed.

Lemma fold_skip_two a b hi s :
  a < b < hi -> skip a = true -> skip b = true ->
  (forall ii, ii < hi -> ii <> a -> ii <> b -> skip ii = false) ->
  fold_left skipping (seq 0 hi) s =
  for_loop (b + 1) hi f (for_loop (a + 1) b f (for_loop 0 a f s)).
Proof.
  intros H Ha Hb Hn.
  replace (seq 0 hi) with (seq 0 (hi - 0)) by (f_equal; lia).
  rewrite (seq_split_at 0 b hi) by lia. rewrite fold_left_app. simpl.
  rewrite Hb.
  rewrite fold_skip_none by (intros ii Hi; apply Hn; lia).
  rewrite fold_skip_one with (a := a); [ reflexivity | lia | exact Ha | ].
  intros ii Hi N. apply Hn; lia.
Qed.
End SkippingLoops.

Section Availability.
Variable dfactor : float.
Variable n : nat.
Variable respon avail : list float.
Local Abbreviation code_avail := (code_avail dfactor n respon avail).

Lemma avail_cell_value a i j :
  i < n -> j < n ->
  nth (j * n + i) a 0%float = nth (j * n + i) avail 0%float ->
  (if i =? j then
     vset a (j * n + i)
       ((1 - dfactor) *
        for_loop (i + 1) n (AffinityProp.sum_step n respon j)
          (for_loop 0 i (AffinityProp.sum_step n respon j) 0) +
        dfactor * nth (j * n + i) a 0)%float
   else
     vset a (j * n + i)
       ((1 - dfactor) *
        Double.std_min 0
          (nth (j * n + j) respon 0 +
           for_loop (Nat.max i j + 1) n (AffinityProp.sum_step n respon j)
             (for_loop (Nat.min i j + 1) (Nat.max i j)
                (AffinityProp.sum_step n respon j)
                (for_loop 0 (Nat.min i j)
                   (AffinityProp.sum_step n respon j) 0))) +
        dfactor * nth (j * n + i) a 0)%float) =
  vset a (j * n + i) (code_avail i j).
Proof.
  intros Hi Hj R. rewrite R. unfold code_avail, sum_except.
  destruct (Nat.eqb_spec i j) as [E | N].
  - subst j. replace (seq 0 n) with (seq 0 (n - 0)) by (f_equal; lia).
    rewrite (fold_skip_one (AffinityProp.sum_step n respon i)
               (fun ii => ii =? i) 0 i n);
      [ reflexivity | lia | apply Nat.eqb_refl | ].
    intros ii _ D. now apply Nat.eqb_neq.
  - rewrite (fold_skip_two (AffinityProp.sum_step n respon j)
               (fun ii => (ii =? i) || (ii =? j))
               (Nat.min i j) (Nat.max i j) n);
      [ reflexivity | lia | | | ].
    + destruct (Nat.min_spec i j) as [[_ ->] | [_ ->]];
        rewrite Nat.eqb_refl; auto using orb_true_r.
    + destruct (Nat.max_spec i j) as [[_ ->] | [_ ->]];
        rewrite Nat.eqb_refl; auto using orb_true_r.
    + intros ii _ D1 D2. apply orb_false_iff.
      split; apply Nat.eqb_neq; lia.
Qed.

(** X13.  The availability pass writes every cell once, from the
    responsibilities just computed and the previous availability of
    that cell: its sums run over the positions other than [i] (and [j]),
    in increasing position, and no cell written earlier in the pass is
    read. *)
Theorem availability_update_cells :
  length avail = n * n ->
  let avail' := AffinityProp.update_avail dfactor n respon avail in
  length avail' = n * n /\
  forall i j, i < n -> j < n ->
    nth (j * n + i) avail' 0%float = code_avail i j.
Proof.
  intros L. unfold AffinityProp.update_avail.
  loop_inv (fun i (r : list float) =>
              length r = n * n /\
              (forall a b, a < i -> b < n ->
                 nth (b * n + a) r 0%float = code_avail a b) /\
              (forall a b, i <= a -> a < n -> b < n ->
                 nth (b * n + a) r 0%float = nth (b * n + a) avail 0%float)).
  - lia.
  - split; [ exact L | ]. split; [ intros a b Ha; lia | auto ].
  - intros i r Hi (L' & A & B).
    loop_inv (fun j (r' : list float) =>
                length r' = n * n /\
                (forall a b, a < i \/ (a = i /\ b < j) -> a < n -> b < n ->
                   nth (b * n + a) r' 0%float = code_avail a b) /\
                (forall a b, ~ (a < i \/ (a = i /\ b < j)) -> a < n -> b < n ->
                   nth (b * n + a) r' 0%float = nth (b * n + a) avail 0%float)).
    + lia.
    + split; [ exact L' | ]. split.
      * intros a b H Ha Hb. apply A; lia.
      * intros a b H Ha Hb. apply B; lia.
    + intros j r' Hj (L'' & A' & B'). cbv zeta.
      rewrite avail_cell_value by (try apply B'; lia).
      split; [ now rewrite vset_length | ].
      assert (P : j * n + i < length r') by (rewrite L''; apply cell_lt; lia).
      split.
      * intros a b H Ha Hb.
        destruct (Nat.eq_dec (j * n + i) (b * n + a)) as [E | N].
        -- symmetry in E. apply cell_inj in E; [ | lia | lia ].
           destruct E as [-> ->]. now rewrite nth_vset_eq by exact P.
        -- rewrite nth_vset_neq by exact N. apply A'; try lia.
           destruct H as [H | [-> H]]; [ lia | ].
           right. split; [ reflexivity | ].
           destruct (Nat.eq_dec b j) as [-> | D]; [ congruence | lia ].
      * intros a b H Ha Hb. rewrite nth_vset_neq.
        -- apply B'; lia.
        -- intros E. symmetry in E. apply cell_inj in E; lia.
    + destruct G as (L'' & A' & B'). split; [ exact L'' | ]. split.
      * intros a b Ha Hb. apply A'; lia.
      * intros a b H1 H2 Hb. apply B'; lia.
  - destruct G as (L' & A & _). split; [ exact L' | ].
    intros i j Hi Hj. now apply A.
Qed.
End Availability.

Lemma availability_update_cells_witness :
  let simil := AffinityProp.get_similarity_ 0%float sq_diff three_points 3 in
  let zeros := repeat 0%float 9 in
  let respon := AffinityProp.update_respon 0.5 simil 3 zeros zeros in
  length zeros = 3 * 3 /\
  nth (1 * 3 + 0) (AffinityProp.update_avail 0.5 3 respon zeros) 0%float =
  code_avail 0.5 3 respon zeros 0 1.
Proof.
  intros simil zeros respon. split; [ reflexivity | ].
  apply (availability_update_cells 0.5 3 respon zeros eq_refl); lia.
Defined.

(* ------------------------------------------------------------------ *)
(** ** Affinity propagation: subscripts and small columns *)

Lemma round_no_point d simil st : AffinityProp.round d simil 0 st = st.
Proof. destruct st as [avail respon]. reflexivity. Qed.

Lemma iter_fixed {A : Type} (f : A -> A) (x : A) k :
  f x = x -> Nat.iter k f x = x.
Proof. intros H. induction k as [ | k IH]; simpl; congruence. Qed.

Lemma iter_absorbed {A : Type} (f : A -> A) (x y : A) k :
  f x = y -> f y = y -> Nat.iter (S k) f x = y.
Proof.
  intros H1 H2. induction k as [ | k IH]; [ exact H1 | ].
  change (f (Nat.iter (S k) f x) = y). now rewrite IH.
Qed.

Section AffinityPropEdges.
Variable T : Type.
Variable I : Type.
Variable T0 : T.
Implicit Types (v : AffinityProp.AffinityPropVisitor T) (col : list T)
  (idx : list I).

Lemma messages_rounds v idx col :
  let n := Nat.min (length idx) (length col) in
  let simil := AffinityProp.get_similarity_ T0 (AffinityProp.dfunc_ v) col n in
  AffinityProp.messages T0 v idx col =
  before_round (AffinityProp.dfactor_ v) simil n (AffinityProp.iter_num_ v).
Proof.
  intros n simil. unfold AffinityProp.messages, AffinityProp.get_avail_and_respon.
  rewrite get_avail_and_respon_trace_spec, !resize_nil. reflexivity.
Qed.

(** X14.  No subscript of [operator()] leaves its vector: the packed
    similarity vector has n (n + 1) / 2 entries, both message matrices
    have n * n cells after every round, and for any [i, j < n] the offsets
    [i * n + j - (i (i + 1) >> 1)] and [j * n + i] are inside them. *)
Theorem ap_subscripts_in_range v idx col :
  let n := Nat.min (length idx) (length col) in
  let simil := AffinityProp.get_similarity_ T0 (AffinityProp.dfunc_ v) col n in
  let m := AffinityProp.messages T0 v idx col in
  length simil = (n * (n + 1)) / 2 /\
  length (fst m) = n * n /\
  length (snd m) = n * n /\
  forall i j, i < n -> j < n ->
    AffinityProp.packed n i j < length simil /\
    j * n + i < length (fst m) /\
    j * n + i < length (snd m).
Proof.
  intros n simil m.
  assert (M : m = before_round (AffinityProp.dfactor_ v) simil n
                    (AffinityProp.iter_num_ v)) by apply messages_rounds.
  destruct (before_round_length (AffinityProp.dfactor_ v) simil n
              (AffinityProp.iter_num_ v)) as [L1 L2].
  rewrite <- M in L1, L2. clearbody m.
  assert (L : length simil = (n * (n + 1)) / 2).
  { unfold simil. clearbody n. destruct n as [ | n'].
    - now rewrite get_similarity_no_point.
    - destruct (get_similarity_spec T T0 (AffinityProp.dfunc_ v) col (S n')
                  ltac:(lia)) as (mv & E & _).
      exact E. }
  split; [ exact L | ]. split; [ exact L1 | ]. split; [ exact L2 | ].
  intros i j Hi Hj. rewrite L, L1, L2.
  split; [ now apply packed_in_range | ].
  split; now apply cell_lt.
Qed.

(** X15.  On an empty column [operator()] stores no similarity, its
    rounds leave the two empty matrices alone and it elects nothing;
    [get_clusters] of a fresh visitor then returns no view. *)
Theorem ap_empty_column v idx col :
  Nat.min (length idx) (length col) = 0 ->
  AffinityProp.get_similarity_ T0 (AffinityProp.dfunc_ v) col 0 = [] /\
  AffinityProp.messages T0 v idx col = ([], []) /\
  AffinityProp.get_result (AffinityProp.compute T0 v idx col) =
    AffinityProp.get_result v /\
  (AffinityProp.get_result v = [] ->
   AffinityProp.get_clusters T0 (AffinityProp.compute T0 v idx col) idx col =
   Some []).
Proof.
  intros Z.
  assert (C : AffinityProp.centers_ (AffinityProp.compute T0 v idx col) =
              AffinityProp.centers_ v).
  { rewrite compute_centers. unfold elected. rewrite Z. simpl.
    apply app_nil_r. }
  split; [ apply get_similarity_no_point | ]. split; [ | split ].
  - rewrite messages_rounds, Z. unfold before_round.
    apply iter_fixed. apply round_no_point.
  - exact C.
  - unfold AffinityProp.get_result. intros E. apply ap_get_clusters_empty.
    now rewrite C.
Qed.

(** X16.  On a one-point column no distance is computed: the only
    similarity entry is the diagonal, left at the largest finite double.
    With the default damping and at least one round the responsibility
    of the point overflows to infinity, its availability stays zero, and
    the point is elected. *)
Theorem ap_single_point (num_of_iter : nat) (dfunc : T -> T -> float)
    idx col :
  Nat.min (length idx) (length col) = 1 ->
  let v := AffinityProp.make (S num_of_iter) dfunc default_damping in
  AffinityProp.get_similarity_ T0 dfunc col 1 = [Double.max] /\
  AffinityProp.messages T0 v idx col = ([0%float], [infinity]) /\
  AffinityProp.get_result (AffinityProp.compute T0 v idx col) = [Elem 0].
Proof.
  intros Z v.
  assert (S1 : AffinityProp.get_similarity_ T0 dfunc col 1 = [Double.max])
    by reflexivity.
  assert (M : AffinityProp.messages T0 v idx col = ([0%float], [infinity])).
  { rewrite messages_rounds, Z. unfold v. cbn [AffinityProp.dfunc_
      AffinityProp.dfactor_ AffinityProp.iter_num_ AffinityProp.make].
    rewrite S1. unfold before_round. apply iter_absorbed.
    - vm_compute. reflexivity.
    - vm_compute. reflexivity. }
  split; [ exact S1 | ]. split; [ exact M | ].
  unfold AffinityProp.get_result. rewrite compute_centers.
  unfold elected. rewrite Z, M. vm_compute. reflexivity.
Qed.
End AffinityPropEdges.

Lemma ap_empty_column_witness :
  Nat.min (length (@nil nat)) (length two_groups) = 0 /\
  AffinityProp.messages 0%float (ap_default 50) (@nil nat) two_groups = ([], []).
Proof.
  split; [ reflexivity | ].
  exact (proj1 (proj2 (ap_empty_column float nat 0%float (ap_default 50)
                         [] two_groups eq_refl))).
Defined.

Lemma ap_single_point_witness :
  Nat.min (length [7]) (length two_groups) = 1 /\
  AffinityProp.get_result
    (AffinityProp.compute 0%float (ap_default 3) [7] two_groups) = [Elem 0].
Proof.
  split; [ reflexivity | ].
  exact (proj2 (proj2 (ap_single_point float nat 0%float 2 sq_diff
                         [7] two_groups eq_refl))).
Defined.
